(** * Jarvis assistant: text chunker, punctuation normaliser, website resolver

    A shallow embedding of the text utilities of the repository
    ([Text_SpeechToPython.py], [SpeechToText_Python.py], [Web_Open.py]) and
    the properties of them that the specification states.

    Python [str] values are modelled as lists of characters, one [ascii] per
    code point; the model therefore covers the code points U+0000..U+00FF.
    The character tables ([isspace], [isalnum], [lower]) are those of CPython
    restricted to that range.  Python [int] is [Z]. *)

From Stdlib Require Import List Ascii String ZArith QArith Bool Lia DecimalString.
Import ListNotations.

Open Scope string_scope.
Open Scope list_scope.

(** ** Python strings *)

Definition str : Type := list ascii.

(** A string literal of the source. *)
Definition lit (x : string) : str := list_ascii_of_string x.

Definition len (x : str) : Z := Z.of_nat (List.length x).

Definition ord (c : ascii) : N := N_of_ascii c.

(** [str.isspace] on one character: the characters [Py_UNICODE_ISSPACE]
    accepts below U+0100 (TAB..CR, FS..US, SPACE, NEL, NBSP).  This is also
    the class [\s] of [re] on [str] patterns, and what [str.strip()] and
    [str.split()] without argument remove. *)
Definition isspace (c : ascii) : bool :=
  let n := ord c in
  ((9 <=? n) && (n <=? 13) || (28 <=? n) && (n <=? 32) || (n =? 133) || (n =? 160))%N.

Definition ascii_eqb (a b : ascii) : bool := Ascii.eqb a b.

Definition mem (c : ascii) (chars : str) : bool := existsb (ascii_eqb c) chars.

Fixpoint dropwhile (p : ascii -> bool) (x : str) : str :=
  match x with
  | [] => []
  | c :: t => if p c then dropwhile p t else x
  end.

(** [x.lstrip(chars)], [x.rstrip(chars)], [x.strip(chars)] for a character
    predicate. *)
Definition lstrip_by (p : ascii -> bool) (x : str) : str := dropwhile p x.
Definition rstrip_by (p : ascii -> bool) (x : str) : str := rev (dropwhile p (rev x)).
Definition strip_by (p : ascii -> bool) (x : str) : str := rstrip_by p (lstrip_by p x).

(** [x.strip()] *)
Definition strip (x : str) : str := strip_by isspace x.

(** [x.strip(chars)] *)
Definition strip_chars (chars x : str) : str := strip_by (fun c => mem c chars) x.

(** [x.replace(old, new)] where [old] and [new] are one character long. *)
Definition replace (old new : ascii) (x : str) : str :=
  map (fun c => if ascii_eqb c old then new else c) x.

(** [x.split(sep)] where [sep] is one character long: the fragments between
    the separators, empty ones included; never an empty list. *)
Fixpoint split (sep : ascii) (x : str) : list str :=
  match x with
  | [] => [[]]
  | c :: t =>
      if ascii_eqb c sep then [] :: split sep t
      else match split sep t with
           | h :: r => (c :: h) :: r
           | [] => [[c]]
           end
  end.

(** [sep.join(l)] *)
Fixpoint join (sep : str) (l : list str) : str :=
  match l with
  | [] => []
  | [x] => x
  | x :: t => x ++ sep ++ join sep t
  end.

(** Truth value of a string or list: [if x:] *)
Definition truthy {A} (l : list A) : bool :=
  match l with [] => false | _ => true end.

(** ** TextChunker: [JarvisTTS._chunk_text] *)

Module Chunker.

(** The two accumulators of the loop. *)
Record acc := Acc { chunks : list str; current : list str }.

(** One iteration of [for sentence in ...split(".")]. *)
Definition step (max_chunk_len : Z) (a : acc) (sentence : str) : acc :=
  let sentence := strip sentence in
  if negb (truthy sentence) then a
  else
    let candidate := strip (join (lit ". ") (current a ++ [sentence])) in
    if (len candidate <=? max_chunk_len)%Z then
      Acc (chunks a) (current a ++ [sentence])
    else
      Acc (if truthy (current a)
           then chunks a ++ [join (lit ". ") (current a) ++ lit "."]
           else chunks a)
          [sentence].

(** The flush after the loop. *)
Definition flush (a : acc) : list str :=
  if truthy (current a)
  then chunks a ++ [join (lit ". ") (current a) ++ lit "."]
  else chunks a.

(** The sequence the loop iterates over. *)
Definition sentences_raw (text : str) : list str :=
  split "." (replace "!" "." (replace "?" "." text)).

Definition _chunk_text (max_chunk_len : Z) (text : str) : list str :=
  let text := strip text in
  if (len text <=? max_chunk_len)%Z then [text]
  else flush (fold_left (step max_chunk_len) (sentences_raw text) (Acc [] [])).

(** What the specification compares: the non-empty trimmed fragments a string
    has between its periods, and the sentences of a text, whose terminators
    [?] and [!] count as periods. *)
Definition fragments (chunk : str) : list str :=
  filter truthy (map strip (split "." chunk)).

Definition sentences (text : str) : list str :=
  fragments (replace "!" "." (replace "?" "." text)).

(** A character that ends a sentence. *)
Definition terminator (c : ascii) : bool := mem c (lit ".?!").

(** A sentence as the loop keeps it: not empty, trimmed, without a period. *)
Definition clean (x : str) : Prop := x <> [] /\ strip x = x /\ ~ In "."%char x.

(** The sentences the accumulators hold, in order. *)
Definition content (a : acc) : list str :=
  flat_map fragments (chunks a) ++ current a.

(** What the loop keeps about its two accumulators: the pending sentences are
    clean, come from the text, and fit the maximum when they are several;
    every sealed chunk was built from such a list. *)
Definition shaped (max_chunk_len : Z) (from : str -> Prop) (l : list str) : Prop :=
  l <> [] /\ Forall clean l /\ Forall from l /\
  ((len (join (lit ". ") l) <= max_chunk_len)%Z \/ exists x, l = [x]).

Definition sealed (max_chunk_len : Z) (from : str -> Prop) (chunk : str) : Prop :=
  exists l, shaped max_chunk_len from l /\ chunk = join (lit ". ") l ++ lit ".".

Definition shaped_acc (max_chunk_len : Z) (from : str -> Prop) (a : acc) : Prop :=
  Forall (sealed max_chunk_len from) (chunks a) /\
  (current a = [] \/ shaped max_chunk_len from (current a)).

(** Two neighbouring chunks could not have been one: the first sentence of
    the second, joined to the first chunk, passes the maximum. *)
Definition no_room (max_chunk_len : Z) (chunk next : str) : Prop :=
  forall sentence rest,
    fragments next = sentence :: rest ->
    (len chunk + 1 + len sentence > max_chunk_len)%Z.

Definition neighbours_full (max_chunk_len : Z) (l : list str) : Prop :=
  forall pre c1 c2 post, l = pre ++ c1 :: c2 :: post -> no_room max_chunk_len c1 c2.

Definition greedy_acc (max_chunk_len : Z) (a : acc) : Prop :=
  Forall clean (current a) /\
  (chunks a <> [] -> current a <> []) /\
  neighbours_full max_chunk_len (chunks a) /\
  (forall pre c s t,
      chunks a = pre ++ [c] -> current a = s :: t ->
      (len c + 1 + len s > max_chunk_len)%Z).

End Chunker.


(** ** Character tables used by [re] and [str.lower] *)

(** [str.isalnum] below U+0100, plus the underscore: the class [\w] of [re]
    on [str] patterns. *)
Definition isword (c : ascii) : bool :=
  let n := ord c in
  ((48 <=? n) && (n <=? 57) || (65 <=? n) && (n <=? 90) || (n =? 95)
   || (97 <=? n) && (n <=? 122)
   || (n =? 170) || (n =? 178) || (n =? 179) || (n =? 181) || (n =? 185)
   || (n =? 186) || (188 <=? n) && (n <=? 190)
   || (192 <=? n) && (n <=? 214) || (216 <=? n) && (n <=? 246)
   || (248 <=? n))%N.

(** [str.lower] on one character below U+0100. *)
Definition lower_char (c : ascii) : ascii :=
  let n := ord c in
  if ((65 <=? n) && (n <=? 90) || (192 <=? n) && (n <=? 214)
      || (216 <=? n) && (n <=? 222))%N
  then ascii_of_N (n + 32) else c.

(** [x.lower()] *)
Definition lower (x : str) : str := map lower_char x.

(** [str.isdigit] on one character below U+0100: the decimal digits and the
    superscripts one, two and three. *)
Definition isdigit_char (c : ascii) : bool :=
  let n := ord c in
  ((48 <=? n) && (n <=? 57) || (n =? 178) || (n =? 179) || (n =? 185))%N.

(** [x.isdigit()] *)
Definition isdigit (x : str) : bool := truthy x && forallb isdigit_char x.

(** [x.split()]: the maximal runs of non-whitespace characters. *)
Fixpoint split_ws_from (cur x : str) : list str :=
  match x with
  | [] => if truthy cur then [rev cur] else []
  | c :: t =>
      if isspace c
      then (if truthy cur then rev cur :: split_ws_from [] t else split_ws_from [] t)
      else split_ws_from (c :: cur) t
  end.

Definition split_ws (x : str) : list str := split_ws_from [] x.

(** All neighbouring characters of a string satisfy [ok]. *)
Fixpoint pairs_ok (ok : ascii -> ascii -> bool) (x : str) : bool :=
  match x with
  | a :: t =>
      match t with
      | b :: _ => ok a b && pairs_ok ok t
      | [] => true
      end
  | [] => true
  end.

(** No whitespace character next to another one. *)
Definition single_spaced (x : str) : bool :=
  pairs_ok (fun a b => negb (isspace a && isspace b)) x.

(** No whitespace character right before a character of the class [q]. *)
Definition no_space_before (q : ascii -> bool) (x : str) : bool :=
  pairs_ok (fun a b => negb (isspace a && q b)) x.

(** The position of the first character after the leading run of the class
    [p], counted from [n], when that character is in the class [q]. *)
Fixpoint run_then (p q : ascii -> bool) (x : str) (n : nat) : option nat :=
  match x with
  | [] => None
  | c :: t => if p c then run_then p q t (S n) else if q c then Some n else None
  end.

(** Lowercase letters, digits and underscores only. *)
Definition plain (x : str) : bool :=
  forallb (fun c => isword c && ascii_eqb (lower_char c) c) x.

(** No letter, digit or underscore. *)
Definition word_free (x : str) : bool := forallb (fun c => negb (isword c)) x.

(** Whitespace only. *)
Definition blank (x : str) : Prop := forall c, In c x -> isspace c = true.

(** [x.startswith(p)] *)
Fixpoint startswith (x p : str) : bool :=
  match p, x with
  | [], _ => true
  | a :: p', b :: x' => ascii_eqb a b && startswith x' p'
  | _ :: _, [] => false
  end.

(** [x.endswith(p)] *)
Definition endswith (x p : str) : bool := startswith (rev x) (rev p).

(** ** A backtracking matcher for the regular expressions of the source

    The constructs are those the patterns of [SpeechToText_Python.py] use:
    literals, classes, [\b], concatenation, alternation (leftmost alternative
    first), greedy repetition of a class, and one capturing group. *)

Module Re.

Inductive regex : Type :=
| Eps
| Chr (c : ascii)
| Cls (p : ascii -> bool)
| WordB
| Seq (a b : regex)
| Alt (a b : regex)
| Star (p : ascii -> bool)
| Plus (p : ascii -> bool)
| Group (a : regex).

(** A position inside the subject during one match attempt: the character
    before it, the text after it, the number of characters consumed since the
    attempt started, and the span of group 1 if it has matched. *)
Record mstate : Type :=
  MS { prev : option ascii; rest : str; pos : nat; g1 : option (nat * nat) }.

Definition isword_opt (c : option ascii) : bool :=
  match c with Some c => isword c | None => false end.

Definition at_boundary (st : mstate) : bool :=
  xorb (isword_opt (prev st)) (isword_opt (hd_error (rest st))).

(** Equality of a pattern literal and a subject character, under [re.I] when
    [ic] is set. *)
Definition chr_eqb (ic : bool) (c x : ascii) : bool :=
  if ic then ascii_eqb (lower_char c) (lower_char x) else ascii_eqb c x.

(** Greedy [X*] for a class [p]: take one more character while possible, give
    it back when the continuation fails. *)
Fixpoint star (p : ascii -> bool) (k : mstate -> option mstate)
    (pv : option ascii) (r : str) (n : nat) (g : option (nat * nat))
    : option mstate :=
  match r with
  | c :: t =>
      if p c then
        match star p k (Some c) t (S n) g with
        | Some st => Some st
        | None => k (MS pv r n g)
        end
      else k (MS pv r n g)
  | [] => k (MS pv r n g)
  end.

Fixpoint m (ic : bool) (r : regex) (st : mstate)
    (k : mstate -> option mstate) : option mstate :=
  match r with
  | Eps => k st
  | Chr c =>
      match rest st with
      | x :: t => if chr_eqb ic c x then k (MS (Some x) t (S (pos st)) (g1 st)) else None
      | [] => None
      end
  | Cls p =>
      match rest st with
      | x :: t => if p x then k (MS (Some x) t (S (pos st)) (g1 st)) else None
      | [] => None
      end
  | WordB => if at_boundary st then k st else None
  | Seq a b => m ic a st (fun st' => m ic b st' k)
  | Alt a b =>
      match m ic a st k with
      | Some st' => Some st'
      | None => m ic b st k
      end
  | Star p => star p k (prev st) (rest st) (pos st) (g1 st)
  | Plus p =>
      match rest st with
      | x :: t => if p x then star p k (Some x) t (S (pos st)) (g1 st) else None
      | [] => None
      end
  | Group a =>
      m ic a st (fun st' => k (MS (prev st') (rest st') (pos st') (Some (pos st, pos st'))))
  end.

(** [pattern.match] at a position whose preceding character is [pv]: the
    length of the match and the span of group 1. *)
Definition match_at (ic : bool) (r : regex) (pv : option ascii) (x : str)
    : option (nat * option (nat * nat)) :=
  match m ic r (MS pv x 0 None) Some with
  | Some st => Some (pos st, g1 st)
  | None => None
  end.

(** A replacement template: literal characters and [\1]. *)
Inductive ritem : Type := RChr (c : ascii) | RGroup1.

Definition group_text (x : str) (g : option (nat * nat)) : str :=
  match g with
  | Some (b, e) => firstn (e - b) (skipn b x)
  | None => []
  end.

Definition expand (repl : list ritem) (x : str) (g : option (nat * nat)) : str :=
  flat_map (fun i => match i with RChr c => [c] | RGroup1 => group_text x g end) repl.

(** [pattern.sub(repl, x)]: leftmost non-overlapping matches, scanning from
    the left; [skip] counts the characters of the last match still to be
    passed over. *)
Fixpoint sub_from (ic : bool) (r : regex) (repl : list ritem)
    (pv : option ascii) (skip : nat) (x : str) {struct x} : str :=
  match skip with
  | S k =>
      match x with
      | [] => []
      | c :: t => sub_from ic r repl (Some c) k t
      end
  | O =>
      match match_at ic r pv x with
      | Some (n, g) =>
          expand repl x g ++
          match x with
          | [] => []
          | c :: t =>
              match n with
              | O => c :: sub_from ic r repl (Some c) 0 t
              | S k => sub_from ic r repl (Some c) k t
              end
          end
      | None =>
          match x with
          | [] => []
          | c :: t => c :: sub_from ic r repl (Some c) 0 t
          end
      end
  end.

Definition sub (ic : bool) (r : regex) (repl : list ritem) (x : str) : str :=
  sub_from ic r repl None 0 x.

(** Builders for patterns. *)
Fixpoint chars (x : str) : regex :=
  match x with
  | [] => Eps
  | c :: t => Seq (Chr c) (chars t)
  end.

Definition never : regex := Cls (fun _ => false).

Fixpoint alt (l : list regex) : regex :=
  match l with
  | [] => never
  | [a] => a
  | a :: t => Alt a (alt t)
  end.

Fixpoint seq (l : list regex) : regex :=
  match l with
  | [] => Eps
  | [a] => a
  | a :: t => Seq a (seq t)
  end.

Definition one_of (x : string) : ascii -> bool := fun c => mem c (lit x).

Definition text (x : string) : list ritem := map RChr (lit x).

(** The pattern opens with [\b]. *)
Definition starts_at_boundary (r : regex) : bool :=
  match r with
  | Seq WordB _ => true
  | _ => false
  end.

End Re.

(** ** PunctuationNormalizer: [normalize_pronounced_punctuation] *)

Module Normalizer.
Import Re.

(** A compiled rule: the pattern and its replacement.  All rules of the two
    tables are compiled with [re.I]. *)
Definition rule : Type := regex * list ritem.

(** [re.compile(r"\b(a|b|...)\b", re.I)] *)
Definition spoken (alternatives : list string) : regex :=
  seq [WordB; Group (alt (map (fun a => chars (lit a)) alternatives)); WordB].

Definition _PUNCT_PATTERNS : list rule :=
  [ (spoken ["hash"; "pound"; "number sign"], text "#");
    (spoken ["dollar"; "dollar sign"], text "$");
    (spoken ["ampersand"; "and sign"], text "&");
    (spoken ["dot"; "period"; "full stop"], text ".");
    (spoken ["comma"], text ",");
    (spoken ["semicolon"], text ";");
    (spoken ["colon"], text ":");
    (spoken ["underscore"; "under score"], text "_");
    (spoken ["dash"; "hyphen"; "minus"], text "-");
    (spoken ["plus"; "add"; "plus sign"], text "+");
    (spoken ["slash"; "forward slash"], text "/");
    (spoken ["backslash"; "back slash"], text "\");
    (spoken ["star"; "asterisk"], text "*");
    (spoken ["percent"; "percentage"], text "%");
    (spoken ["equal"; "equals"; "equal to"], text "=");
    (spoken ["greater than"], text ">");
    (spoken ["less than"], text "<");
    (spoken ["pipe"; "vertical bar"], text "|");
    (spoken ["caret"], text "^");
    (spoken ["at"; "at the rate"], text "@");
    (spoken ["exclamation"; "bang"; "exclamation mark"], text "!");
    (spoken ["question mark"; "question"], text "?");
    (spoken ["quote"; "double quote"], [RChr "034"]);
    (spoken ["single quote"; "apostrophe"], text "'");
    (spoken ["open parenthesis"; "open bracket"; "left parenthesis"], text "(");
    (spoken ["close parenthesis"; "close bracket"; "right parenthesis"], text ")");
    (spoken ["open brace"; "left brace"], text "{");
    (spoken ["close brace"; "right brace"], text "}");
    (spoken ["open square bracket"; "left square bracket"], text "[");
    (spoken ["close square bracket"; "right square bracket"], text "]");
    (spoken ["space"; "blank"], text " ");
    (spoken ["new line"; "newline"], [RChr "010"]) ].

(** The dictionary of spoken extension variants, in insertion order. *)
Definition _EXTENSION_VARIANTS : list (string * list string) :=
  [ ("txt", ["t x t"; "txt"]);
    ("py", ["p y"; "py"]);
    ("c", ["c"]);
    ("cpp", ["c p p"; "cpp"; "c plus plus"]) ].

(** [r"\s*".join(map(re.escape, parts))]: the variants hold letters and
    blanks only, which [re.escape] leaves as literals. *)
Fixpoint join_ws (parts : list str) : regex :=
  match parts with
  | [] => Eps
  | [p] => chars p
  | p :: t => Seq (chars p) (Seq (Star isspace) (join_ws t))
  end.

(** [re.compile(r"\bdot\s+" + variant_regex + r"\b", re.I)] with its
    replacement [f".{ext}"]. *)
Definition dot_ext_rule (ext variant : string) : rule :=
  (seq [WordB; chars (lit "dot"); Plus isspace; join_ws (split_ws (lit variant)); WordB],
   text (String "." ext)).

Definition _DOT_EXT_PATTERNS : list rule :=
  flat_map (fun '(ext, variants) => map (dot_ext_rule ext) variants)
           _EXTENSION_VARIANTS.

(** [for pattern, repl in rules: normalized = pattern.sub(repl, normalized)] *)
Definition apply_rules (rules : list rule) (x : str) : str :=
  fold_left (fun acc '(pattern, repl) => sub true pattern repl acc) rules x.

(** [re.sub(r"\s*X\s*", repl, x)] for one literal character [X]. *)
Definition tighten_char (c : ascii) (x : str) : str :=
  sub false (seq [Star isspace; Chr c; Star isspace]) [RChr c] x.

(** 3) [re.sub(r"\s*([/\\\.\-\+\*%=&\|\^#@!\?,:;])\s*", r"\1", x)] *)
Definition tighten_symbols (x : str) : str :=
  sub false (seq [Star isspace; Group (Cls (one_of "/\.-+*%=&|^#@!?,:;")); Star isspace])
      [RGroup1] x.

(** 4) the six substitutions for brackets and braces *)
Definition tighten_brackets (x : str) : str :=
  let x := tighten_char "(" x in
  let x := tighten_char ")" x in
  let x := tighten_char "[" x in
  let x := tighten_char "]" x in
  let x := tighten_char "{" x in
  tighten_char "}" x.

(** 5) [re.sub(r"[ \t]+", " ", x)] *)
Definition collapse_blanks (x : str) : str :=
  sub false (Plus (fun c => ascii_eqb c " " || ascii_eqb c "009")) (text " ") x.

(** [re.sub(r"\s*([+\-*/%=&|^<>])\s*", r" \1 ", x)] *)
Definition space_operators (x : str) : str :=
  sub false (seq [Star isspace; Group (Cls (one_of "+-*/%=&|^<>")); Star isspace])
      [RChr " "; RGroup1; RChr " "] x.

(** [re.sub(r"\s+", " ", x)] *)
Definition collapse_whitespace (x : str) : str :=
  sub false (Plus isspace) (text " ") x.

(** [re.sub(r"\s*([.,?!])", r"\1", x)] *)
Definition tighten_sentence_punct (x : str) : str :=
  sub false (seq [Star isspace; Group (Cls (one_of ".,?!"))]) [RGroup1] x.

Definition normalize_pronounced_punctuation (text : str) : str :=
  let normalized := text in
  let normalized := apply_rules _DOT_EXT_PATTERNS normalized in
  let normalized := apply_rules _PUNCT_PATTERNS normalized in
  let normalized := tighten_symbols normalized in
  let normalized := tighten_brackets normalized in
  let normalized := collapse_blanks normalized in
  let normalized := space_operators normalized in
  let normalized := collapse_whitespace normalized in
  let normalized := tighten_sentence_punct normalized in
  let normalized := strip normalized in
  strip normalized.

End Normalizer.

(** ** The runtime the resolver and the loggers talk to *)

Module Runtime.

(** The exceptions the modelled calls can raise.  [KeyboardInterrupt] is the
    one that does not derive from [Exception]. *)
Inductive exn : Type :=
| OSError (msg : str)
| EOFError
| ValueError (msg : str)
| KeyError (key : str)
| KeyboardInterrupt.

(** [isinstance(e, Exception)] *)
Definition is_Exception (e : exn) : bool :=
  match e with
  | KeyboardInterrupt => false
  | _ => true
  end.

(** [str(e)] *)
Definition str_of_exn (e : exn) : str :=
  match e with
  | OSError msg => msg
  | EOFError => lit "EOF when reading a line"
  | ValueError msg => msg
  | KeyError key => lit "'" ++ key ++ lit "'"
  | KeyboardInterrupt => []
  end.

Record datetime : Type :=
  DateTime { year : nat; month : nat; day : nat; hour : nat; minute : nat; second : nat }.

(** [str(n)] for a non-negative integer. *)
Definition str_of_nat (n : nat) : str := lit (NilEmpty.string_of_uint (Nat.to_uint n)).

(** A number zero-padded on the left to [width] digits. *)
Definition zero_padded (width n : nat) : str :=
  let d := str_of_nat n in
  repeat "0"%char (width - List.length d) ++ d.

(** [dt.strftime("%Y-%m-%d %H:%M:%S")], the year on four digits. *)
Definition strftime (dt : datetime) : str :=
  zero_padded 4 (year dt) ++ lit "-" ++ zero_padded 2 (month dt) ++ lit "-" ++
  zero_padded 2 (day dt) ++ lit " " ++ zero_padded 2 (hour dt) ++ lit ":" ++
  zero_padded 2 (minute dt) ++ lit ":" ++ zero_padded 2 (second dt).

(** The file system: the content of each path. *)
Definition files : Type := string -> str.

Definition write_file (fs : files) (path : string) (content : str) : files :=
  fun p => if String.eqb p path then content else fs p.

(** The operating system under the two loggers: what opening a path for
    appending and writing [data] to it leaves on disk, with the message of the
    error it raised if it failed; and whether creating a directory failed. *)
Record os : Type :=
  OS { os_append : files -> string -> str -> files * option str;
       os_mkdir : string -> option str }.

(** An operating system on which nothing fails. *)
Definition healthy_os : os :=
  OS (fun fs path data => (write_file fs path (fs path ++ data), None))
     (fun _ => None).

(** An operating system on which every append fails with [msg] and leaves
    the disk as it was. *)
Definition failing_os (msg : string) : os :=
  OS (fun fs _ _ => (fs, Some (lit msg))) (fun _ => Some (lit msg)).

Record world : Type :=
  World { stdin : list str;       (* the lines input() will read *)
          stdout : list str;      (* what print() and input() wrote *)
          browser : list str;     (* the URLs given to webbrowser.open *)
          now : datetime;         (* datetime.now() *)
          disk : files }.

Inductive result (A : Type) : Type :=
| Ok (a : A)
| Raise (e : exn).
Arguments Ok {A} a.
Arguments Raise {A} e.

(** Computations: they read and change the world, and return or raise. *)
Definition M (A : Type) : Type := world -> result A * world.

Definition ret {A} (a : A) : M A := fun w => (Ok a, w).

Definition raise {A} (e : exn) : M A := fun w => (Raise e, w).

Definition bind {A B} (c : M A) (f : A -> M B) : M B :=
  fun w =>
    match c w with
    | (Ok a, w') => f a w'
    | (Raise e, w') => (Raise e, w')
    end.

Notation "x <- c ;; f" := (bind c (fun x => f))
  (at level 61, c at next level, right associativity).
Notation "c ;;; f" := (bind c (fun _ => f))
  (at level 61, right associativity).

(** [try: body  except Exception as e: handler(e)] *)
Definition try_except {A} (body : M A) (handler : exn -> M A) : M A :=
  fun w =>
    match body w with
    | (Ok a, w') => (Ok a, w')
    | (Raise e, w') => if is_Exception e then handler e w' else (Raise e, w')
    end.

(** [for x in l: body(x)] *)
Fixpoint for_each {A} (l : list A) (body : A -> M unit) : M unit :=
  match l with
  | [] => ret tt
  | x :: t => body x ;;; for_each t body
  end.

(** A loop that updates a local variable. *)
Fixpoint fold_m {A S} (l : list A) (body : S -> A -> M S) (st : S) : M S :=
  match l with
  | [] => ret st
  | x :: t => st' <- body st x ;; fold_m t body st'
  end.

(** [print(text, end="")] *)
Definition print (text : str) : M unit :=
  fun w => (Ok tt, World (stdin w) (stdout w ++ [text]) (browser w) (now w) (disk w)).

(** [input(prompt)] *)
Definition input (prompt : str) : M str :=
  fun w =>
    let out := if truthy prompt then stdout w ++ [prompt] else stdout w in
    match stdin w with
    | line :: t => (Ok line, World t out (browser w) (now w) (disk w))
    | [] => (Raise EOFError, World [] out (browser w) (now w) (disk w))
    end.

(** [webbrowser.open(url)] *)
Definition webbrowser_open (url : str) : M unit :=
  fun w => (Ok tt, World (stdin w) (stdout w) (browser w ++ [url]) (now w) (disk w)).

(** [datetime.now().strftime("%Y-%m-%d %H:%M:%S")] *)
Definition timestamp_now : M str := fun w => (Ok (strftime (now w)), w).

(** [with open(path, "a", encoding="utf-8") as f: f.write(data)] *)
Definition append_file (o : os) (path : string) (data : str) : M unit :=
  fun w =>
    let '(fs, err) := os_append o (disk w) path data in
    let w' := World (stdin w) (stdout w) (browser w) (now w) fs in
    match err with
    | None => (Ok tt, w')
    | Some msg => (Raise (OSError msg), w')
    end.

(** [path.parent.mkdir(parents=True, exist_ok=True)] *)
Definition mkdir_parents (o : os) (path : string) : M unit :=
  fun w =>
    match os_mkdir o path with
    | None => (Ok tt, w)
    | Some msg => (Raise (OSError msg), w)
    end.

(** Two runs agree when they end the same way, with the same URLs opened
    and the same input left. *)
Definition agree {A} (r1 r2 : result A * world) : Prop :=
  fst r1 = fst r2 /\
  browser (snd r1) = browser (snd r2) /\
  stdin (snd r1) = stdin (snd r2).

(** A step that opens nothing and writes no file; the input left is what
    was there without the lines the step read. *)
Definition quiet (w w' : world) : Prop :=
  browser w' = browser w /\ disk w' = disk w /\ now w' = now w /\
  exists k, stdin w' = skipn k (stdin w).

(** The errors of reading the answer: no more input, or an answer [int]
    refuses. *)
Definition input_error (e : exn) : Prop :=
  e = EOFError \/ exists msg, e = ValueError msg.

(** A computation that is quiet, returns only values satisfying [Q] and
    raises only input errors. *)
Definition yields {A} (c : M A) (Q : A -> Prop) : Prop :=
  forall w,
    quiet w (snd (c w)) /\
    match fst (c w) with
    | Ok a => Q a
    | Raise e => input_error e
    end.

End Runtime.

(** ** The logger of [SpeechToText_Python.py] *)

Module SpeechLog.
Import Runtime.

Definition OUTPUT_FILE : string := "SpeechToText_Python/input.txt".

(** [f"{timestamp} | DEEP: {text}\n"] *)
Definition input_file_line (timestamp text : str) : str :=
  timestamp ++ lit " | DEEP: " ++ text ++ ["010"%char].

(** [colorama.Fore.RED]: the escape sequence [ESC [ 3 1 m].  It is part of
    the text given to [print]; what the stream wrapper that
    [colorama.init] installs makes of it on the terminal is outside the
    model. *)
Definition Fore_RED : str := ["027"; "["; "3"; "1"; "m"]%char.

Definition append_to_input_file (o : os) (text : str) : M unit :=
  try_except
    (mkdir_parents o OUTPUT_FILE ;;;
     timestamp <- timestamp_now ;;
     append_file o OUTPUT_FILE (input_file_line timestamp text))
    (fun e => print (Fore_RED ++ lit "File write error: " ++ str_of_exn e ++ ["010"%char])).

End SpeechLog.

(** ** WebsiteResolver: [Web_Open.py] *)

Module Resolver.
Import Runtime.

Definition INPUT_FILE : string := "Jarvis/Web_Open/input.txt".

(** [w[len(prefix):]] when [w.startswith(prefix)] *)
Definition cut_prefix (w prefix : str) : str :=
  if startswith w prefix then skipn (List.length prefix) w else w.

(** [w[: -len(suffix)]] when [w.endswith(suffix)] *)
Definition cut_suffix (w suffix : str) : str :=
  if endswith w suffix then firstn (List.length w - List.length suffix) w else w.

Definition prefixes : list str := [lit "http://"; lit "https://"].
Definition suffixes : list str := [lit ".com"; lit ".in"; lit ".org"; lit ".net"].

(** The value of [w] in [normalize_word] when the loop over the suffixes
    starts. *)
Definition before_suffixes (word : str) : str :=
  let w := strip (lower word) in
  let w := strip_chars (lit ",.!?/:\|") w in
  let w := fold_left cut_prefix prefixes w in
  let w := if startswith w (lit "www.") then skipn 4 w else w in
  w.

Definition normalize_word (word : str) : str :=
  let w := before_suffixes word in
  let w := fold_left cut_suffix suffixes w in
  w.

(** [f"{status}"] for a [bool] *)
Definition str_of_bool (b : bool) : str := if b then lit "True" else lit "False".

(** The line [log_to_file] writes. *)
Definition log_line (timestamp message : str) (status : option bool) : str :=
  match status with
  | Some b => timestamp ++ lit " | DEEP: " ++ message ++ lit " | " ++ str_of_bool b ++ ["010"%char]
  | None => timestamp ++ lit " |  DEEP: " ++ message ++ ["010"%char]
  end.

Definition log_to_file (o : os) (message : str) (status : option bool) : M unit :=
  try_except
    (timestamp <- timestamp_now ;;
     append_file o INPUT_FILE (log_line timestamp message status))
    (fun e => print (lit "[LOG ERROR] There is a problem writing to input.txt: "
                     ++ str_of_exn e ++ ["010"%char])).

Definition str_eqb (a b : str) : bool :=
  if list_eq_dec ascii_dec a b then true else false.

(** The value of a string of decimal digits; [None] when a character is not
    one of them, as the superscript digits that [isdigit] accepts. *)
Fixpoint int_from (acc : Z) (x : str) : option Z :=
  match x with
  | [] => Some acc
  | c :: t =>
      let n := ord c in
      if ((48 <=? n) && (n <=? 57))%N
      then int_from (10 * acc + Z.of_N (n - 48)) t
      else None
  end.

(** The number of decimal digits a string starts with. *)
Fixpoint leading_digits (x : str) : nat :=
  match x with
  | [] => O
  | c :: t =>
      let n := ord c in
      if ((48 <=? n) && (n <=? 57))%N then S (leading_digits t) else O
  end.

(** [repr(x)] for a string that passed [x.isdigit()]: none of its characters
    needs an escape. *)
Definition repr (x : str) : str := lit "'" ++ x ++ lit "'".

(** [int(x)] for a string that passed [x.isdigit()], as CPython 3.11 with
    its default settings does it: more than 4300 leading digits are refused
    before anything else is looked at; then a character that is not a decimal
    digit is refused, the message quoting at most 200 characters of
    [repr(x)]. *)
Definition int (x : str) : M Z :=
  let digits := leading_digits x in
  if (4300 <? digits)%nat
  then raise (ValueError
                (lit "Exceeds the limit (4300 digits) for integer string conversion: value has "
                 ++ str_of_nat digits
                 ++ lit " digits; use sys.set_int_max_str_digits() to increase the limit"))
  else
    match int_from 0 x with
    | Some z => ret z
    | None =>
        raise (ValueError (lit "invalid literal for int() with base 10: "
                           ++ firstn 200 (repr x)))
    end.

(** The message of the [ValueError] with which [int] refuses a string. *)
Definition int_refusal (x : str) : str :=
  let digits := leading_digits x in
  if (4300 <? digits)%nat
  then lit "Exceeds the limit (4300 digits) for integer string conversion: value has "
       ++ str_of_nat digits
       ++ lit " digits; use sys.set_int_max_str_digits() to increase the limit"
  else lit "invalid literal for int() with base 10: " ++ firstn 200 (repr x).

(** The line [openweb] prints last, for the URLs it opened. *)
Definition summary (urls : list str) : str :=
  if truthy urls
  then lit "Opened " ++ str_of_nat (List.length urls) ++ lit " website(s)." ++ ["010"%char]
  else lit "No valid website names found." ++ ["010"%char].

(** [l[:n]] for a Python [int] [n]: the first [n] elements, or all but the
    last [-n] when [n] is negative. *)
Definition slice_to {A} (n : Z) (l : list A) : list A :=
  if (0 <=? n)%Z
  then firstn (Z.to_nat n) l
  else firstn (List.length l - Z.to_nat (- n)) l.

(** Scores in non-increasing order. *)
Fixpoint ranked (l : list (str * Q)) : Prop :=
  match l with
  | [] => True
  | a :: t => (forall b, In b t -> (snd b <= snd a)%Q) /\ ranked t
  end.

Section WithData.

(** The dictionary of [Data/Web_Data.py], its items in insertion order. *)
Variable websites : list (str * str).

(** [SequenceMatcher(None, a, b).ratio()], of the standard library. *)
Variable similarity : str -> str -> Q.

(** [f"{score*100:.0f}"] *)
Variable percent : Q -> str.

(** [websites.get(key)] *)
Fixpoint lookup (d : list (str * str)) (key : str) : option str :=
  match d with
  | [] => None
  | (k, v) :: t => if str_eqb k key then Some v else lookup t key
  end.

(** [websites[key]] *)
Definition getitem (key : str) : M str :=
  match lookup websites key with
  | Some url => ret url
  | None => raise (KeyError key)
  end.

(** Where [scores.sort(key=lambda x: x[1], reverse=True)] puts one more
    element: behind the ones that score at least as much. *)
Fixpoint insert_desc (x : str * Q) (l : list (str * Q)) : list (str * Q) :=
  match l with
  | [] => [x]
  | y :: t => if Qle_bool (snd x) (snd y) then y :: insert_desc x t else x :: y :: t
  end.

Definition sort_desc (l : list (str * Q)) : list (str * Q) :=
  fold_left (fun sorted x => insert_desc x sorted) l [].

Definition get_candidates (name : str) (min_score : Q) (max_results : Z)
    : list (str * Q) :=
  let scores :=
    flat_map (fun '(key, _) =>
                let score := similarity name key in
                if Qle_bool min_score score then [(key, score)] else [])
             websites in
  slice_to max_results (sort_desc scores).

(** A name that [openweb] resolves without asking: a key of the dictionary,
    or a name with no candidate. *)
Definition direct (name : str) : bool :=
  match lookup websites name with
  | Some _ => true
  | None =>
      match get_candidates name (82 # 100) 5 with
      | [] => true
      | _ => false
      end
  end.

(** The two local variables of [openweb]. *)
Record found : Type := Found { urls_to_open : list str; opened_urls : list str }.

(** [if url not in opened_urls: urls_to_open.append(url); opened_urls.add(url)] *)
Definition add_url (f : found) (url : str) : found :=
  if existsb (str_eqb url) (opened_urls f) then f
  else Found (urls_to_open f ++ [url]) (url :: opened_urls f).

(** What the loop does with a word it resolves without asking. *)
Definition take (f : found) (word : str) : found :=
  match lookup websites (normalize_word word) with
  | Some url => add_url f url
  | None => f
  end.

(** The invariant of the two variables: the list has no duplicates, holds
    what the set holds, and holds URLs of the dictionary only. *)
Definition known (f : found) : Prop :=
  NoDup (urls_to_open f) /\
  (forall u, In u (opened_urls f) <-> In u (urls_to_open f)) /\
  (forall u, In u (urls_to_open f) -> In u (map snd websites)).

(** The line printed for candidate number [i]. *)
Definition candidate_line (i : nat) (c : str * Q) : str :=
  lit "  " ++ str_of_nat i ++ lit ". " ++ fst c ++ lit "  ("
  ++ percent (snd c * 100) ++ lit "% match)" ++ ["010"%char].

(** The body of the loop over [zip(words, normalized_words)]. *)
Definition resolve_word (f : found) (token : str * str) : M found :=
  let '(original, name) := token in
  match lookup websites name with
  | Some url => ret (add_url f url)
  | None =>
      let candidates := get_candidates name (82 # 100) 5 in
      match candidates with
      | [] => ret f
      | [(corrected, score)] =>
          print (lit "Did you mean '" ++ corrected ++ lit "' instead of '"
                 ++ original ++ lit "'? (y/n): ") ;;;
          ans <- input [] ;;
          let ans := lower (strip ans) in
          if str_eqb ans (lit "y")
          then url <- getitem corrected ;; ret (add_url f url)
          else ret f
      | _ =>
          print (lit "Multiple matches found for '" ++ original ++ lit "':" ++ ["010"%char]) ;;;
          for_each (combine (seq 1 (List.length candidates)) candidates)
                   (fun '(i, c) => print (candidate_line i c)) ;;;
          choice <- input (lit "Enter number to open, 'a' for all, or 'n' to skip: ") ;;
          let choice := lower (strip choice) in
          if str_eqb choice (lit "n") || str_eqb choice []
          then ret f
          else if str_eqb choice (lit "a")
          then fold_m candidates
                      (fun f c => url <- getitem (fst c) ;; ret (add_url f url)) f
          else if isdigit choice
          then
            idx <- int choice ;;
            if ((1 <=? idx) && (idx <=? Z.of_nat (List.length candidates)))%Z
            then
              match nth_error candidates (Z.to_nat (idx - 1)) with
              | Some (cand, _) => url <- getitem cand ;; ret (add_url f url)
              | None => ret f
              end
            else print (lit "Invalid choice, skipping." ++ ["010"%char]) ;;; ret f
          else print (lit "Invalid choice, skipping." ++ ["010"%char]) ;;; ret f
      end
  end.

Definition openweb (o : os) (text : str) : M unit :=
  let words := split_ws text in
  let normalized_words := map normalize_word words in
  f <- fold_m (combine words normalized_words) resolve_word (Found [] []) ;;
  if truthy (urls_to_open f)
  then
    for_each (urls_to_open f) webbrowser_open ;;;
    print (lit "Opened " ++ str_of_nat (List.length (urls_to_open f))
           ++ lit " website(s)." ++ ["010"%char]) ;;;
    log_to_file o text (Some true)
  else
    print (lit "No valid website names found." ++ ["010"%char]) ;;;
    log_to_file o text (Some false).

(** What [openweb] does once the loop over the words has returned [f]. *)
Definition finish (o : os) (text : str) (f : found) : M unit :=
  if truthy (urls_to_open f)
  then
    for_each (urls_to_open f) webbrowser_open ;;;
    print (lit "Opened " ++ str_of_nat (List.length (urls_to_open f))
           ++ lit " website(s)." ++ ["010"%char]) ;;;
    log_to_file o text (Some true)
  else
    print (lit "No valid website names found." ++ ["010"%char]) ;;;
    log_to_file o text (Some false).

(** The words that end [main]. *)
Definition exit_words : list str := [lit "exit"; lit "quit"; lit "q"].

(** [main]: the loop runs at most [fuel] times; [None] is a run that needs
    more. *)
Fixpoint main (fuel : nat) (o : os) (w : world) : option (result unit * world) :=
  match fuel with
  | O => None
  | S fuel' =>
      match input (lit "web name (or 'exit'): ") w with
      | (Raise e, w1) => Some (Raise e, w1)
      | (Ok line, w1) =>
          let web_input := strip line in
          if existsb (str_eqb (lower web_input)) exit_words
          then Some (print (lit "Exiting..." ++ ["010"%char]) w1)
          else if negb (truthy web_input) then main fuel' o w1
          else
            match openweb o web_input w1 with
            | (Ok _, w2) => main fuel' o w2
            | (Raise e, w2) => Some (Raise e, w2)
            end
      end
  end.

(** How a run of [main] ends. *)
Definition ends (w : world) (r : result unit * world) : Prop :=
  (exists urls, browser (snd r) = browser w ++ urls /\
                forall u, In u urls -> In u (map snd websites)) /\
  match fst r with
  | Ok _ =>
      exists before line out,
        stdin w = before ++ line :: stdin (snd r) /\
        existsb (str_eqb (lower (strip line))) exit_words = true /\
        stdout (snd r) = out ++ [lit "Exiting..." ++ ["010"%char]]
  | Raise e => input_error e
  end.

End WithData.

End Resolver.

(** * Properties *)

(** ** Facts about the string operations *)

Section StringFacts.

Variable p : ascii -> bool.

Lemma ascii_eqb_eq (a b : ascii) : ascii_eqb a b = true <-> a = b.
Proof. apply Ascii.eqb_eq. Qed.

Lemma ascii_eqb_neq (a b : ascii) : ascii_eqb a b = false <-> a <> b.
Proof. apply Ascii.eqb_neq. Qed.

Lemma dropwhile_In (x : str) (c : ascii) : In c (dropwhile p x) -> In c x.
Proof.
  induction x as [|a t IH]; simpl; auto.
  destruct (p a); simpl; auto.
Qed.

Lemma dropwhile_all (x : str) : forallb p x = true -> dropwhile p x = [].
Proof.
  induction x as [|a t IH]; simpl; auto.
  destruct (p a); simpl; auto. discriminate.
Qed.

Lemma dropwhile_nil_all (x : str) : dropwhile p x = [] -> forallb p x = true.
Proof.
  induction x as [|a t IH]; simpl; auto.
  destruct (p a); simpl; auto. discriminate.
Qed.

Lemma dropwhile_length (x : str) : (List.length (dropwhile p x) <= List.length x)%nat.
Proof.
  induction x as [|a t IH]; simpl; auto.
  destruct (p a); simpl; lia.
Qed.

Lemma dropwhile_snoc (x : str) (c : ascii) :
  dropwhile p (x ++ [c]) =
  match dropwhile p x with
  | [] => if p c then [] else [c]
  | d => d ++ [c]
  end.
Proof.
  induction x as [|a t IH]; simpl.
  - destruct (p c); reflexivity.
  - destruct (p a); simpl; auto.
Qed.

(** The recursive reading of [rstrip]. *)
Lemma rstrip_by_cons (c : ascii) (t : str) :
  rstrip_by p (c :: t) =
  match rstrip_by p t with
  | [] => if p c then [] else [c]
  | r => c :: r
  end.
Proof.
  unfold rstrip_by. simpl. rewrite dropwhile_snoc.
  destruct (dropwhile p (rev t)) as [|d l] eqn:E; simpl.
  - destruct (p c); reflexivity.
  - rewrite rev_app_distr. simpl.
    destruct (rev l ++ [d]) eqn:E2; [destruct (rev l); discriminate | reflexivity].
Qed.

Lemma rstrip_by_nil : rstrip_by p [] = [].
Proof. reflexivity. Qed.

Lemma rstrip_by_In (x : str) (c : ascii) : In c (rstrip_by p x) -> In c x.
Proof.
  unfold rstrip_by. intros H. apply in_rev in H. apply dropwhile_In in H.
  now apply in_rev.
Qed.

Lemma strip_by_In (x : str) (c : ascii) : In c (strip_by p x) -> In c x.
Proof.
  unfold strip_by, lstrip_by. intros H. apply rstrip_by_In in H.
  now apply dropwhile_In in H.
Qed.

Lemma rstrip_by_length (x : str) : (List.length (rstrip_by p x) <= List.length x)%nat.
Proof.
  unfold rstrip_by. rewrite length_rev.
  etransitivity; [apply dropwhile_length|]. now rewrite length_rev.
Qed.

Lemma strip_by_length (x : str) : (List.length (strip_by p x) <= List.length x)%nat.
Proof.
  unfold strip_by, lstrip_by.
  etransitivity; [apply rstrip_by_length | apply dropwhile_length].
Qed.

Lemma rstrip_by_all (x : str) : forallb p x = true -> rstrip_by p x = [].
Proof.
  induction x as [|a t IH]; simpl; auto.
  intros H. apply andb_prop in H as [Ha Ht].
  rewrite rstrip_by_cons, (IH Ht), Ha. reflexivity.
Qed.

Lemma rstrip_by_nil_all (x : str) : rstrip_by p x = [] -> forallb p x = true.
Proof.
  induction x as [|a t IH]; simpl; auto.
  rewrite rstrip_by_cons.
  destruct (rstrip_by p t) eqn:E; [|discriminate].
  destruct (p a); [intros _; auto | discriminate].
Qed.

Lemma strip_by_all (x : str) : forallb p x = true -> strip_by p x = [].
Proof.
  intros H. unfold strip_by, lstrip_by. now rewrite (dropwhile_all _ H).
Qed.

(** Stripping the two ends commutes. *)
Lemma lstrip_rstrip_comm (x : str) :
  lstrip_by p (rstrip_by p x) = rstrip_by p (lstrip_by p x).
Proof.
  unfold lstrip_by.
  induction x as [|c t IH]; [reflexivity|].
  rewrite rstrip_by_cons. simpl. destruct (p c) eqn:Hc.
  - rewrite <- IH. destruct (rstrip_by p t); simpl; [reflexivity | now rewrite Hc].
  - rewrite rstrip_by_cons. destruct (rstrip_by p t); simpl; now rewrite Hc.
Qed.

Lemma lstrip_by_idem (x : str) : lstrip_by p (lstrip_by p x) = lstrip_by p x.
Proof.
  unfold lstrip_by. induction x as [|c t IH]; simpl; auto.
  destruct (p c) eqn:Hc; auto. simpl. now rewrite Hc.
Qed.

Lemma rstrip_by_idem (x : str) : rstrip_by p (rstrip_by p x) = rstrip_by p x.
Proof.
  induction x as [|c t IH]; [reflexivity|].
  rewrite rstrip_by_cons.
  destruct (rstrip_by p t) as [|r l] eqn:E.
  - destruct (p c) eqn:Hc; [reflexivity|].
    rewrite rstrip_by_cons. simpl. now rewrite Hc.
  - rewrite rstrip_by_cons, IH. reflexivity.
Qed.

Lemma strip_by_idem (x : str) : strip_by p (strip_by p x) = strip_by p x.
Proof.
  unfold strip_by.
  rewrite (lstrip_rstrip_comm (lstrip_by p x)), lstrip_by_idem, rstrip_by_idem.
  reflexivity.
Qed.

Lemma strip_by_cons_drop (c : ascii) (x : str) :
  p c = true -> strip_by p (c :: x) = strip_by p x.
Proof. intros H. unfold strip_by, lstrip_by. simpl. now rewrite H. Qed.

End StringFacts.

Section SplitFacts.

Variable sep : ascii.

Lemma split_not_nil (x : str) : split sep x <> [].
Proof.
  destruct x as [|c t]; simpl; [discriminate|].
  destruct (ascii_eqb c sep); [discriminate|].
  destruct (split sep t); discriminate.
Qed.

Lemma split_cons_sep (x : str) : split sep (sep :: x) = [] :: split sep x.
Proof.
  simpl. destruct (ascii_eqb sep sep) eqn:E; [reflexivity|].
  apply ascii_eqb_neq in E. contradiction.
Qed.

Lemma split_cons_other (c : ascii) (x : str) :
  c <> sep ->
  split sep (c :: x) = (c :: hd [] (split sep x)) :: tl (split sep x).
Proof.
  intros H. simpl. apply ascii_eqb_neq in H. rewrite H.
  destruct (split sep x) eqn:E; [now apply split_not_nil in E | reflexivity].
Qed.

Lemma split_no_sep (x : str) : Forall (fun f => ~ In sep f) (split sep x).
Proof.
  induction x as [|c t IH]; simpl.
  - constructor; auto.
  - destruct (ascii_eqb c sep) eqn:E.
    + constructor; auto.
    + apply ascii_eqb_neq in E.
      destruct (split sep t) as [|h r]; inversion IH; subst; constructor; auto;
        simpl; intros [->|Hin]; auto.
Qed.

Lemma split_app_sep (a r : str) :
  ~ In sep a -> split sep (a ++ sep :: r) = a :: split sep r.
Proof.
  induction a as [|c t IH]; intros H.
  - apply split_cons_sep.
  - assert (Hc : c <> sep) by (intros ->; apply H; now left).
    assert (Ht : ~ In sep t) by (intros Hin; apply H; now right).
    change ((c :: t) ++ sep :: r) with (c :: (t ++ sep :: r)).
    rewrite (split_cons_other _ _ Hc), (IH Ht). reflexivity.
Qed.

Lemma split_without_sep (a : str) : ~ In sep a -> split sep a = [a].
Proof.
  induction a as [|c t IH]; intros H; [reflexivity|].
  assert (Hc : c <> sep) by (intros ->; apply H; now left).
  assert (Ht : ~ In sep t) by (intros Hin; apply H; now right).
  rewrite (split_cons_other _ _ Hc), (IH Ht). reflexivity.
Qed.

Variable p : ascii -> bool.
Hypothesis sep_kept : p sep = false.

Lemma p_not_sep (c : ascii) : p c = true -> c <> sep.
Proof. intros H ->. congruence. Qed.

(** Stripping a text on the left only strips its first fragment. *)
Lemma split_lstrip (x : str) :
  map (lstrip_by p) (split sep (lstrip_by p x)) = map (lstrip_by p) (split sep x).
Proof.
  unfold lstrip_by. induction x as [|c t IH]; [reflexivity|].
  simpl dropwhile. destruct (p c) eqn:Hc; [|reflexivity].
  rewrite IH, (split_cons_other _ _ (p_not_sep _ Hc)).
  destruct (split sep t) as [|h r] eqn:E; [now apply split_not_nil in E|].
  simpl. now rewrite Hc.
Qed.

(** Stripping a text on the right only strips its last fragment. *)
Lemma split_rstrip (x : str) :
  map (rstrip_by p) (split sep (rstrip_by p x)) = map (rstrip_by p) (split sep x).
Proof.
  induction x as [|c t IH]; [reflexivity|].
  rewrite rstrip_by_cons.
  destruct (ascii_dec c sep) as [->|Hc].
  - rewrite sep_kept, split_cons_sep.
    destruct (rstrip_by p t) as [|a l] eqn:E.
    + simpl in IH. change [sep] with ([] ++ sep :: []).
      rewrite split_app_sep by auto. simpl. rewrite <- IH. reflexivity.
    + rewrite split_cons_sep. cbn [map]. now rewrite IH.
  - rewrite (split_cons_other _ t Hc).
    destruct (split sep t) as [|h r] eqn:Et; [now apply split_not_nil in Et|].
    simpl hd; simpl tl.
    destruct (rstrip_by p t) as [|a l] eqn:E.
    + simpl in IH. destruct r; [|discriminate]. injection IH as IH.
      simpl map. rewrite rstrip_by_cons, <- IH.
      destruct (p c) eqn:Hpc; [reflexivity|].
      rewrite (split_cons_other _ _ Hc). simpl. rewrite rstrip_by_cons. simpl.
      now rewrite Hpc.
    + rewrite (split_cons_other _ _ Hc).
      destruct (split sep (a :: l)) as [|h' r'] eqn:Et'; [now apply split_not_nil in Et'|].
      simpl in IH |- *. injection IH as IH1 IH2.
      rewrite !rstrip_by_cons, IH1, IH2. reflexivity.
Qed.

Lemma split_strip (x : str) :
  map (strip_by p) (split sep (strip_by p x)) = map (strip_by p) (split sep x).
Proof.
  transitivity (map (lstrip_by p) (map (rstrip_by p) (split sep (strip_by p x)))).
  { rewrite map_map. apply map_ext. intros a. unfold strip_by.
    now rewrite lstrip_rstrip_comm. }
  unfold strip_by at 1. rewrite split_rstrip.
  rewrite map_map.
  transitivity (map (rstrip_by p) (map (lstrip_by p) (split sep (lstrip_by p x)))).
  { rewrite map_map. apply map_ext. intros a. apply lstrip_rstrip_comm. }
  rewrite split_lstrip, map_map. reflexivity.
Qed.

End SplitFacts.

Lemma split_In (sep : ascii) (x f : str) (c : ascii) :
  In f (split sep x) -> In c f -> In c x.
Proof.
  revert f. induction x as [|a t IH]; simpl; intros f Hf Hc.
  - destruct Hf as [<-|[]]. destruct Hc.
  - destruct (ascii_eqb a sep).
    + destruct Hf as [<-|Hf]; [destruct Hc | right; eauto].
    + destruct (split sep t) as [|h r].
      * destruct Hf as [<-|[]]. destruct Hc as [->|[]]. now left.
      * destruct Hf as [<-|Hf].
        -- destruct Hc as [->|Hc]; [now left | right; apply (IH h); simpl; auto].
        -- right. apply (IH f); simpl; auto.
Qed.

Lemma dropwhile_map (p : ascii -> bool) (f : ascii -> ascii) (x : str) :
  (forall c, p (f c) = p c) -> dropwhile p (map f x) = map f (dropwhile p x).
Proof.
  intros H. induction x as [|a t IH]; simpl; auto.
  rewrite H. destruct (p a); auto.
Qed.

Lemma strip_by_map (p : ascii -> bool) (f : ascii -> ascii) (x : str) :
  (forall c, p (f c) = p c) -> strip_by p (map f x) = map f (strip_by p x).
Proof.
  intros H. unfold strip_by, rstrip_by, lstrip_by.
  rewrite (dropwhile_map _ _ _ H), <- map_rev, (dropwhile_map _ _ _ H), map_rev.
  reflexivity.
Qed.

(** ** TextChunker *)

Section ChunkerFacts.
Import Chunker.

Variable max_chunk_len : Z.

Lemma isspace_not_period : isspace "." = false.
Proof. reflexivity. Qed.

Lemma replace_keeps_space (old new c : ascii) :
  isspace old = false -> isspace new = false ->
  isspace (if ascii_eqb c old then new else c) = isspace c.
Proof.
  intros Ho Hn. destruct (ascii_eqb c old) eqn:E; [|reflexivity].
  apply ascii_eqb_eq in E. congruence.
Qed.

Lemma strip_replace (old new : ascii) (x : str) :
  isspace old = false -> isspace new = false ->
  strip (replace old new x) = replace old new (strip x).
Proof.
  intros Ho Hn. apply strip_by_map. intros c. now apply replace_keeps_space.
Qed.

(** Trimming a text does not change its sentences. *)
Lemma sentences_strip (text : str) : sentences (strip text) = sentences text.
Proof.
  unfold sentences, fragments.
  rewrite <- !strip_replace by reflexivity.
  unfold strip. now rewrite (split_strip "." isspace isspace_not_period).
Qed.

Lemma fragments_cons_space (c : ascii) (x : str) :
  isspace c = true -> fragments (c :: x) = fragments x.
Proof.
  intros Hc. unfold fragments.
  rewrite (split_cons_other "." c x) by (apply (p_not_sep "." isspace isspace_not_period _ Hc)).
  destruct (split "." x) as [|h r] eqn:E; [now apply split_not_nil in E|].
  cbn [hd tl map]. unfold strip. now rewrite (strip_by_cons_drop isspace c h Hc).
Qed.

(** The fragments of a sealed chunk are the sentences it was built from. *)
Lemma fragments_sealed (l : list str) :
  l <> [] -> Forall clean l -> fragments (join (lit ". ") l ++ lit ".") = l.
Proof.
  induction l as [|x t IH]; intros Hne Hl; [contradiction|].
  inversion Hl as [|? ? (Hx & Hsx & Hdx) Ht]; subst.
  destruct t as [|y t'].
  - cbn [join]. unfold fragments. change (lit ".") with ["."%char].
    rewrite split_app_sep by assumption. cbn [split map].
    rewrite Hsx. destruct x; [contradiction | reflexivity].
  - change (join (lit ". ") (x :: y :: t')) with (x ++ lit ". " ++ join (lit ". ") (y :: t')).
    rewrite <- !app_assoc.
    change (lit ". " ++ join (lit ". ") (y :: t') ++ lit ".")
      with ("."%char :: " "%char :: (join (lit ". ") (y :: t') ++ lit ".")).
    unfold fragments. rewrite split_app_sep by assumption.
    cbn [map filter]. rewrite Hsx.
    destruct x as [|c x']; [contradiction|]. cbn [truthy].
    apply (f_equal (cons (c :: x'))).
    change (fragments (" "%char :: (join (lit ". ") (y :: t') ++ lit ".")) = y :: t').
    rewrite fragments_cons_space by reflexivity.
    apply IH; [discriminate | assumption].
Qed.

Lemma truthy_false {A} (l : list A) : truthy l = false -> l = [].
Proof. destruct l; [reflexivity | discriminate]. Qed.

Lemma truthy_true {A} (l : list A) : truthy l = true -> l <> [].
Proof. destruct l; [discriminate | discriminate]. Qed.

Lemma clean_strip (x : str) :
  truthy (strip x) = true -> ~ In "."%char x -> clean (strip x).
Proof.
  intros Ht Hd. repeat split.
  - now apply truthy_true.
  - apply strip_by_idem.
  - intros Hin. apply Hd. now apply strip_by_In in Hin.
Qed.

Lemma step_clean (a : acc) (x : str) :
  Forall clean (current a) -> ~ In "."%char x ->
  Forall clean (current (step max_chunk_len a x)).
Proof.
  intros Ha Hx. unfold step.
  destruct (truthy (strip x)) eqn:Ht; cbn [negb]; [|assumption].
  destruct (_ <=? _)%Z; cbn [current].
  - apply Forall_app. split; [assumption|]. constructor; [|constructor].
    now apply clean_strip.
  - constructor; [|constructor]. now apply clean_strip.
Qed.

Lemma step_content (a : acc) (x : str) :
  Forall clean (current a) ->
  content (step max_chunk_len a x) = content a ++ filter truthy [strip x].
Proof.
  intros Ha. unfold step. cbn [filter].
  destruct (truthy (strip x)) eqn:Ht; cbn [negb]; [|now rewrite app_nil_r].
  unfold content.
  destruct (_ <=? _)%Z; cbn [current chunks].
  - now rewrite app_assoc.
  - destruct (current a) as [|y t] eqn:Ec; cbn [truthy].
    + now rewrite app_nil_r.
    + rewrite flat_map_app. cbn [flat_map]. rewrite app_nil_r.
      rewrite fragments_sealed by (assumption || discriminate).
      reflexivity.
Qed.

Lemma loop_content (raw : list str) (a : acc) :
  Forall clean (current a) -> Forall (fun f => ~ In "."%char f) raw ->
  let a' := fold_left (step max_chunk_len) raw a in
  Forall clean (current a') /\
  content a' = content a ++ filter truthy (map strip raw).
Proof.
  revert a. induction raw as [|x t IH]; intros a Ha Hraw; cbn [fold_left map filter].
  - split; [assumption | now rewrite app_nil_r].
  - inversion Hraw; subst.
    destruct (IH (step max_chunk_len a x)) as [Hc Hcontent];
      [now apply step_clean | assumption |].
    split; [exact Hc|].
    cbn zeta in Hcontent. rewrite Hcontent, step_content by assumption.
    rewrite <- app_assoc. f_equal. cbn [filter].
    destruct (truthy (strip x)); reflexivity.
Qed.

Lemma flush_content (a : acc) :
  Forall clean (current a) -> flat_map fragments (flush a) = content a.
Proof.
  intros Ha. unfold flush, content.
  destruct (current a) as [|y t] eqn:Ec; cbn [truthy].
  - now rewrite app_nil_r.
  - rewrite flat_map_app. cbn [flat_map]. rewrite app_nil_r.
    now rewrite fragments_sealed by (assumption || discriminate).
Qed.

End ChunkerFacts.

(** C4.  When the trimmed text is longer than the maximum, the fragments of
    the chunks (each chunk split on the period, the fragments trimmed, the
    empty ones dropped), taken over the chunks in order, are exactly the
    non-empty trimmed sentences of the original text, in their order. *)
Theorem chunk_text_keeps_sentences (max_chunk_len : Z) (text : str) :
  (len (strip text) > max_chunk_len)%Z ->
  flat_map Chunker.fragments (Chunker._chunk_text max_chunk_len text)
  = Chunker.sentences text.
Proof.
  intros Hlong. unfold Chunker._chunk_text.
  destruct (len (strip text) <=? max_chunk_len)%Z eqn:E; [apply Z.leb_le in E; lia|].
  destruct (loop_content max_chunk_len (Chunker.sentences_raw (strip text)) (Chunker.Acc [] []))
    as [Hc Hcontent]; [constructor | apply split_no_sep |].
  cbn zeta in Hcontent.
  rewrite flush_content by exact Hc.
  rewrite Hcontent. unfold Chunker.content. cbn [Chunker.chunks Chunker.current flat_map app].
  rewrite <- (sentences_strip text). reflexivity.
Qed.

Lemma chunk_text_keeps_sentences_witness :
  (len (strip (lit " Hi there! How are you? Fine. ")) > 10)%Z /\
  flat_map Chunker.fragments (Chunker._chunk_text 10 (lit " Hi there! How are you? Fine. "))
  = [lit "Hi there"; lit "How are you"; lit "Fine"].
Proof.
  split; [reflexivity|].
  rewrite (chunk_text_keeps_sentences 10 (lit " Hi there! How are you? Fine. "));
    reflexivity.
Defined.

(** C7.  A text whose trimmed length is within the maximum comes back as the
    one-element sequence holding the trimmed text. *)
Theorem chunk_text_short (max_chunk_len : Z) (text : str) :
  (len (strip text) <= max_chunk_len)%Z ->
  Chunker._chunk_text max_chunk_len text = [strip text].
Proof.
  intros H. unfold Chunker._chunk_text.
  apply Z.leb_le in H. now rewrite H.
Qed.

Lemma chunk_text_short_witness :
  (len (strip (lit "  Hello, Jarvis. How are you?  ")) <= 400)%Z /\
  Chunker._chunk_text 400 (lit "  Hello, Jarvis. How are you?  ")
  = [lit "Hello, Jarvis. How are you?"].
Proof.
  split; [vm_compute; discriminate|].
  rewrite (chunk_text_short 400 (lit "  Hello, Jarvis. How are you?  ")).
  - reflexivity.
  - vm_compute; discriminate.
Defined.

Section ChunkerEmpty.
Import Chunker.

Variable max_chunk_len : Z.

(** A fragment of whitespace only leaves the accumulators as they are. *)
Lemma step_blank (a : acc) (x : str) :
  forallb isspace x = true -> step max_chunk_len a x = a.
Proof.
  intros H. unfold step, strip. now rewrite (strip_by_all _ _ H).
Qed.

Lemma loop_blank (raw : list str) (a : acc) :
  Forall (fun x => forallb isspace x = true) raw ->
  fold_left (step max_chunk_len) raw a = a.
Proof.
  induction raw as [|x t IH]; intros H; [reflexivity|].
  inversion H; subst. cbn [fold_left]. rewrite step_blank by assumption. auto.
Qed.

Lemma terminators_become_periods (text : str) (c : ascii) :
  forallb (fun c => isspace c || terminator c) text = true ->
  In c (replace "!" "." (replace "?" "." text)) ->
  c = "."%char \/ isspace c = true.
Proof.
  intros Hall Hin. unfold replace in Hin. rewrite map_map in Hin.
  apply in_map_iff in Hin as (d & <- & Hd).
  rewrite forallb_forall in Hall. specialize (Hall d Hd).
  destruct (ascii_eqb d "?") eqn:Eq; [now left|].
  destruct (ascii_eqb d "!") eqn:Eb; [now left|].
  apply orb_prop in Hall as [Hs|Ht]; [now right|].
  unfold terminator, mem in Ht. cbn [existsb lit list_ascii_of_string] in Ht.
  rewrite Eq, Eb in Ht. cbn [orb] in Ht. rewrite orb_false_r in Ht.
  apply ascii_eqb_eq in Ht. now left.
Qed.

End ChunkerEmpty.

(** C9.  An over-length text can yield no chunk at all: four periods with a
    maximum of three do, and so does every over-length text made of sentence
    terminators and whitespace only. *)
Theorem chunk_text_can_be_empty :
  (exists (max_chunk_len : Z) (text : str),
      (len (strip text) > max_chunk_len)%Z /\ text <> [] /\
      Chunker._chunk_text max_chunk_len text = []) /\
  (forall (max_chunk_len : Z) (text : str),
      (len (strip text) > max_chunk_len)%Z ->
      forallb (fun c => isspace c || Chunker.terminator c) text = true ->
      Chunker._chunk_text max_chunk_len text = []).
Proof.
  split.
  - exists 3%Z, (lit "....").
    split; [reflexivity | split; [discriminate | reflexivity]].
  - intros max_chunk_len text Hlong Hall. unfold Chunker._chunk_text.
    destruct (len (strip text) <=? max_chunk_len)%Z eqn:E; [apply Z.leb_le in E; lia|].
    rewrite loop_blank; [reflexivity|].
    apply Forall_forall. intros f Hf.
    apply forallb_forall. intros c Hc.
    assert (Hnp : ~ In "."%char f).
    { pose proof (split_no_sep "." (replace "!" "." (replace "?" "." (strip text)))) as Hs.
      rewrite Forall_forall in Hs. now apply Hs. }
    assert (Hall' : forallb (fun c => isspace c || Chunker.terminator c) (strip text) = true).
    { apply forallb_forall. intros d Hd. rewrite forallb_forall in Hall.
      apply Hall. now apply strip_by_In in Hd. }
    assert (Hin : In c (replace "!" "." (replace "?" "." (strip text))))
      by now apply (split_In "." _ f).
    destruct (terminators_become_periods (strip text) c Hall' Hin) as [->|Hs];
      [contradiction | assumption].
Qed.

Lemma chunk_text_can_be_empty_witness :
  (len (strip (lit "?! ... ?")) > 5)%Z /\
  Chunker._chunk_text 5 (lit "?! ... ?") = [].
Proof.
  split; [reflexivity|].
  apply (proj2 chunk_text_can_be_empty 5%Z (lit "?! ... ?")); reflexivity.
Defined.

(** C1 at a concrete input.  With a maximum of 6, the text [ab. cd. ef] is
    cut into two chunks; the first one joins two sentences, each shorter than
    the maximum, and is 7 characters long: the period that seals a chunk is
    not counted when the candidate is measured. *)
Theorem chunk_text_exceeds_max :
  let chunks := Chunker._chunk_text 6 (lit "ab. cd. ef") in
  chunks = [lit "ab. cd."; lit "ef."] /\
  Chunker.fragments (lit "ab. cd.") = [lit "ab"; lit "cd"] /\
  (len (lit "ab") <= 6)%Z /\ (len (lit "cd") <= 6)%Z /\
  exists chunk, In chunk chunks /\ (len chunk > 6)%Z.
Proof.
  cbv zeta.
  split; [reflexivity|]. split; [reflexivity|].
  split; [discriminate|]. split; [discriminate|].
  exists (lit "ab. cd."). split; [left; reflexivity | reflexivity].
Qed.

(** C1, second input: a single sentence of exactly the maximum length is
    sealed into a chunk one character longer. *)
Lemma chunk_text_single_sentence_exceeds_max :
  Chunker._chunk_text 3 (lit "abc. d") = [lit "abc."; lit "d."] /\
  (len (lit "abc") <= 3)%Z /\ (len (lit "abc.") > 3)%Z.
Proof. split; [reflexivity | split; [discriminate | reflexivity]]. Qed.

(** ** WebsiteResolver: [normalize_word] *)

Section NormalizeWordFacts.
Import Resolver.

Lemma startswith_app (x p : str) :
  startswith x p = true -> x = p ++ skipn (List.length p) x.
Proof.
  revert x. induction p as [|a p' IH]; intros x H; [reflexivity|].
  destruct x as [|b x']; [discriminate|].
  cbn [startswith] in H. apply andb_prop in H as [Hab Hrest].
  apply ascii_eqb_eq in Hab. subst b.
  cbn [List.length skipn app]. f_equal. now apply IH.
Qed.

Lemma endswith_app (x p : str) :
  endswith x p = true -> x = firstn (List.length x - List.length p) x ++ p.
Proof.
  unfold endswith. intros H. apply startswith_app in H.
  rewrite length_rev, skipn_rev in H.
  apply (f_equal (@rev ascii)) in H.
  rewrite rev_involutive, rev_app_distr, !rev_involutive in H.
  exact H.
Qed.

(** One pass of the suffix loop removes the suffix it tests, or nothing. *)
Lemma cut_suffix_app (w suffix : str) :
  exists removed, (removed = [] \/ removed = suffix) /\ w = cut_suffix w suffix ++ removed.
Proof.
  unfold cut_suffix. destruct (endswith w suffix) eqn:E.
  - exists suffix. split; [now right | now apply endswith_app].
  - exists []. split; [now left | now rewrite app_nil_r].
Qed.

End NormalizeWordFacts.

(** C2, as stated, fails: the loop tests every suffix of the list in turn, so
    a word that ends in two stacked suffixes loses both when the outer one
    comes first in the list.  [a.net.com] becomes [a]. *)
Lemma normalize_word_strips_two_suffixes :
  ~ (forall word : str,
        Resolver.before_suffixes word = Resolver.normalize_word word \/
        exists suffix, In suffix Resolver.suffixes /\
          Resolver.before_suffixes word = Resolver.normalize_word word ++ suffix).
Proof.
  intros H. specialize (H (lit "a.net.com")).
  assert (Hb : Resolver.before_suffixes (lit "a.net.com") = lit "a.net.com") by reflexivity.
  assert (Hn : Resolver.normalize_word (lit "a.net.com") = lit "a") by reflexivity.
  rewrite Hb, Hn in H.
  destruct H as [H | (suffix & Hin & H)]; [discriminate|].
  cbn in Hin. destruct Hin as [<-|[<-|[<-|[<-|[]]]]]; discriminate.
Qed.

(** The two readings of stacked suffixes, and the docstring's examples. *)
Lemma normalize_word_examples :
  Resolver.normalize_word (lit "a.com.in") = lit "a.com" /\
  Resolver.normalize_word (lit "a.net.com") = lit "a" /\
  Resolver.normalize_word (lit "x.net.org.in.com") = lit "x" /\
  Resolver.normalize_word (lit "Youtube.com") = lit "youtube" /\
  Resolver.normalize_word (lit "WWW.GOOGLE.COM") = lit "google".
Proof. repeat split; reflexivity. Qed.

(** ** The log lines *)

(** The part of C3 that holds: [append_to_input_file] writes
    [<timestamp> | DEEP: <text>], and [log_to_file] with a success flag writes
    [<timestamp> | DEEP: <text> | <True|False>]. *)
Lemma log_lines_with_one_space (o : Runtime.os) (text : str) (b : bool) (w : Runtime.world) :
  Runtime.os_mkdir o SpeechLog.OUTPUT_FILE = None ->
  let ts := Runtime.strftime (Runtime.now w) in
  fst (Runtime.os_append o (Runtime.disk w) SpeechLog.OUTPUT_FILE
         (ts ++ lit " | DEEP: " ++ text ++ ["010"%char]))
  = Runtime.disk (snd (SpeechLog.append_to_input_file o text w)) /\
  fst (Runtime.os_append o (Runtime.disk w) Resolver.INPUT_FILE
         (ts ++ lit " | DEEP: " ++ text ++ lit " | " ++ (if b then lit "True" else lit "False")
             ++ ["010"%char]))
  = Runtime.disk (snd (Resolver.log_to_file o text (Some b) w)).
Proof.
  intros Hmk. cbv zeta. split.
  - unfold SpeechLog.append_to_input_file, Runtime.try_except, Runtime.bind,
      Runtime.mkdir_parents, Runtime.timestamp_now, Runtime.append_file,
      SpeechLog.input_file_line.
    rewrite Hmk.
    destruct (Runtime.os_append _ _ _ _) as [fs [msg|]]; reflexivity.
  - unfold Resolver.log_to_file, Runtime.try_except, Runtime.bind,
      Runtime.timestamp_now, Runtime.append_file, Resolver.log_line, Resolver.str_of_bool.
    destruct (Runtime.os_append _ _ _ _) as [fs [msg|]]; reflexivity.
Qed.

(** C3 at a concrete input.  [log_to_file("hello")], without a success flag,
    appends a line with two spaces between the bar and [DEEP:]; for no
    message and no timestamp is the line it writes of the form
    [<timestamp> | DEEP: <text>]. *)
Theorem log_to_file_without_status_two_spaces :
  let w := Runtime.World [] [] [] (Runtime.DateTime 2024 3 7 9 5 0) (fun _ => []) in
  let w' := snd (Resolver.log_to_file Runtime.healthy_os (lit "hello") None w) in
  Runtime.disk w' Resolver.INPUT_FILE
    = lit "2024-03-07 09:05:00 |  DEEP: hello" ++ ["010"%char] /\
  Runtime.disk w' Resolver.INPUT_FILE
    <> lit "2024-03-07 09:05:00 | DEEP: hello" ++ ["010"%char] /\
  forall timestamp message text : str,
    Resolver.log_line timestamp message None
    <> timestamp ++ lit " | DEEP: " ++ text ++ ["010"%char].
Proof.
  cbv zeta. split; [reflexivity|]. split; [discriminate|].
  intros timestamp message text H. unfold Resolver.log_line in H.
  apply app_inv_head in H. discriminate.
Qed.

(** ** PunctuationNormalizer *)

(** C5.  [print a plus b] becomes [print a + b]: the rule for [plus] writes
    the symbol, the tightening pass removes the spaces around it, and the
    operator pass puts one space back on each side. *)
Theorem normalize_print_a_plus_b :
  let after_rules :=
    Normalizer.apply_rules Normalizer._PUNCT_PATTERNS
      (Normalizer.apply_rules Normalizer._DOT_EXT_PATTERNS (lit "print a plus b")) in
  after_rules = lit "print a + b" /\
  Normalizer.tighten_symbols after_rules = lit "print a+b" /\
  Normalizer.space_operators (lit "print a+b") = lit "print a + b" /\
  Normalizer.normalize_pronounced_punctuation (lit "print a plus b") = lit "print a + b".
Proof.
  cbv zeta. repeat split; vm_compute; reflexivity.
Qed.

(** C6.  [save file dot t x t] becomes [save file.txt], which ends in
    [file.txt]: the extension rules, applied first, rewrite [dot t x t] to
    [.txt]; the rules for punctuation words then find nothing; the tightening
    pass removes the space before the dot. *)
Theorem normalize_save_file_dot_txt :
  let after_ext :=
    Normalizer.apply_rules Normalizer._DOT_EXT_PATTERNS (lit "save file dot t x t") in
  after_ext = lit "save file .txt" /\
  Normalizer.apply_rules Normalizer._PUNCT_PATTERNS after_ext = after_ext /\
  Normalizer.tighten_symbols after_ext = lit "save file.txt" /\
  Normalizer.normalize_pronounced_punctuation (lit "save file dot t x t")
    = lit "save " ++ lit "file.txt" /\
  endswith (Normalizer.normalize_pronounced_punctuation (lit "save file dot t x t"))
           (lit "file.txt") = true.
Proof.
  cbv zeta. repeat split; vm_compute; reflexivity.
Qed.

Section SubFacts.
Import Re.

(** A greedy repetition whose continuation accepts always matches, and does
    not move backwards. *)
Lemma star_accepts (p : ascii -> bool) (r : str) :
  forall pv n g, exists st, star p Some pv r n g = Some st /\ (n <= pos st)%nat.
Proof.
  induction r as [|c t IH]; intros pv n g; cbn [star].
  - eexists. split; [reflexivity | cbn; lia].
  - destruct (p c).
    + destruct (IH (Some c) (S n) g) as (st & -> & Hle).
      exists st. split; [reflexivity | lia].
    + eexists. split; [reflexivity | cbn; lia].
Qed.

(** [X+] at a position: it matches exactly when the next character is in the
    class, and then takes at least one character and sets no group. *)
Lemma match_at_plus (p : ascii -> bool) (pv : option ascii) (x : str) :
  match x with
  | c :: _ =>
      if p c
      then exists k g, match_at false (Plus p) pv x = Some (S k, g)
      else match_at false (Plus p) pv x = None
  | [] => match_at false (Plus p) pv x = None
  end.
Proof.
  unfold match_at. cbn [m rest pos g1 prev].
  destruct x as [|c t]; [reflexivity|].
  destruct (p c); [|reflexivity].
  destruct (star_accepts p t (Some c) 1 None) as (st & -> & Hle).
  destruct (pos st) as [|k] eqn:E; [lia|].
  exists k, (g1 st). reflexivity.
Qed.

(** After [re.sub(X+, " ", x)] every character is the blank of the
    replacement or a character of [x] outside the class. *)
Lemma sub_plus_chars (p : ascii -> bool) (x : str) :
  forall pv skip c,
    In c (sub_from false (Plus p) (text " ") pv skip x) ->
    c = " "%char \/ (In c x /\ p c = false).
Proof.
  induction x as [|a t IH]; intros pv skip c Hin.
  - destruct skip; cbn in Hin; [destruct Hin|destruct Hin].
  - destruct skip as [|k].
    + cbn [sub_from] in Hin.
      pose proof (match_at_plus p pv (a :: t)) as Hm. cbn beta iota in Hm.
      destruct (p a) eqn:Hpa.
      * destruct Hm as (k & g & Hm). rewrite Hm in Hin.
        cbn [expand text lit list_ascii_of_string map flat_map app] in Hin.
        destruct Hin as [<-|Hin]; [now left|].
        destruct (IH _ _ _ Hin) as [->|[Hc Hp]]; [now left | right; split; [now right | exact Hp]].
      * rewrite Hm in Hin. destruct Hin as [<-|Hin].
        -- right. split; [now left | exact Hpa].
        -- destruct (IH _ _ _ Hin) as [->|[Hc Hp]]; [now left | right; split; [now right | exact Hp]].
    + cbn [sub_from] in Hin.
      destruct (IH _ _ _ Hin) as [->|[Hc Hp]]; [now left | right; split; [now right | exact Hp]].
Qed.

Lemma firstn_In (n : nat) (x : str) (c : ascii) : In c (firstn n x) -> In c x.
Proof.
  revert n. induction x as [|a t IH]; intros [|n]; cbn; auto.
  - intros [].
  - intros [->|H]; [now left | right; eauto].
Qed.

Lemma skipn_In (n : nat) (x : str) (c : ascii) : In c (skipn n x) -> In c x.
Proof.
  revert n. induction x as [|a t IH]; intros [|n]; cbn; auto.
  intros H. right; eauto.
Qed.

Lemma group_text_In (x : str) (g : option (nat * nat)) (c : ascii) :
  In c (group_text x g) -> In c x.
Proof.
  destruct g as [[b e]|]; cbn; [|intros []].
  intros H. apply firstn_In in H. now apply skipn_In in H.
Qed.

(** A substitution whose replacement is [\1] alone writes characters of its
    subject only. *)
Lemma sub_group_chars (ic : bool) (r : regex) (x : str) :
  forall pv skip c,
    In c (sub_from ic r [RGroup1] pv skip x) -> In c x.
Proof.
  induction x as [|a t IH]; intros pv skip c Hin.
  - destruct skip; cbn [sub_from] in Hin; [|destruct Hin].
    destruct (match_at ic r pv []) as [[n g]|]; [|destruct Hin].
    rewrite app_nil_r in Hin. cbn [expand flat_map] in Hin. rewrite app_nil_r in Hin.
    now apply group_text_In in Hin.
  - destruct skip as [|k]; cbn [sub_from] in Hin.
    + destruct (match_at ic r pv (a :: t)) as [[n g]|].
      * apply in_app_or in Hin as [Hin|Hin].
        -- cbn [expand flat_map] in Hin. rewrite app_nil_r in Hin.
           now apply group_text_In in Hin.
        -- destruct n as [|k].
           ++ destruct Hin as [<-|Hin]; [now left | right; eauto].
           ++ right; eauto.
      * destruct Hin as [<-|Hin]; [now left | right; eauto].
    + right; eauto.
Qed.

End SubFacts.

(** C10.  No result of [normalize_pronounced_punctuation] holds a newline:
    the rule for [new line] does write one, and the pass that collapses
    whitespace turns it into a blank before the function returns. *)
Theorem normalize_has_no_newline :
  (forall text : str,
      ~ In "010"%char (Normalizer.normalize_pronounced_punctuation text)) /\
  In "010"%char (Normalizer.apply_rules Normalizer._PUNCT_PATTERNS (lit "x new line y")) /\
  Normalizer.normalize_pronounced_punctuation (lit "x new line y") = lit "x y".
Proof.
  split; [|split; [vm_compute; tauto | vm_compute; reflexivity]].
  intros text Hin. unfold Normalizer.normalize_pronounced_punctuation in Hin.
  cbv zeta in Hin.
  apply strip_by_In, strip_by_In in Hin.
  unfold Normalizer.tighten_sentence_punct, Re.sub in Hin.
  apply sub_group_chars in Hin.
  unfold Normalizer.collapse_whitespace, Re.sub in Hin.
  apply sub_plus_chars in Hin.
  destruct Hin as [H|[_ H]]; discriminate.
Qed.

(** ** WebsiteResolver: the log append cannot abort a resolution *)

Section LogFacts.
Import Runtime Resolver.

(** [log_to_file] returns normally whatever the operating system does, and
    touches neither the browser nor the pending input. *)
Lemma log_to_file_returns (o : os) (message : str) (status : option bool) (w : world) :
  fst (log_to_file o message status w) = Ok tt /\
  browser (snd (log_to_file o message status w)) = browser w /\
  stdin (snd (log_to_file o message status w)) = stdin w.
Proof.
  unfold log_to_file, try_except, bind, timestamp_now, append_file.
  destruct (os_append o (disk w) INPUT_FILE _) as [fs [msg|]]; cbn; auto.
Qed.

(** When the append succeeds nothing is printed; when it fails, the error
    is. *)
Lemma log_to_file_reports (o : os) (message : str) (status : option bool) (w : world) :
  let ts := strftime (now w) in
  match snd (os_append o (disk w) INPUT_FILE (log_line ts message status)) with
  | None => stdout (snd (log_to_file o message status w)) = stdout w
  | Some msg =>
      stdout (snd (log_to_file o message status w))
      = stdout w ++ [lit "[LOG ERROR] There is a problem writing to input.txt: "
                     ++ msg ++ ["010"%char]]
  end.
Proof.
  cbv zeta. unfold log_to_file, try_except, bind, timestamp_now, append_file.
  destruct (os_append o (disk w) INPUT_FILE _) as [fs [msg|]]; cbn; reflexivity.
Qed.

Lemma agree_bind {A B} (c : M A) (k1 k2 : A -> M B) (w : world) :
  (forall a w', agree (k1 a w') (k2 a w')) ->
  agree (bind c k1 w) (bind c k2 w).
Proof.
  intros H. unfold bind. destruct (c w) as [[a|e] w']; [apply H|].
  repeat split.
Qed.

Lemma agree_log (o1 o2 : os) (message : str) (status : option bool) (w : world) :
  agree (log_to_file o1 message status w) (log_to_file o2 message status w).
Proof.
  destruct (log_to_file_returns o1 message status w) as (E1 & B1 & I1).
  destruct (log_to_file_returns o2 message status w) as (E2 & B2 & I2).
  unfold agree. rewrite E1, E2, B1, B2, I1, I2. auto.
Qed.

End LogFacts.

(** * Further properties of the code *)

(** ** TextChunker: the shape of the chunks *)

Section StrippedFacts.

Variable p : ascii -> bool.

Lemma dropwhile_same_length (x : str) :
  List.length (dropwhile p x) = List.length x -> dropwhile p x = x.
Proof.
  destruct x as [|c t]; [reflexivity|]. cbn [dropwhile].
  destruct (p c); [|reflexivity].
  intros H. pose proof (dropwhile_length p t). cbn [List.length] in H. lia.
Qed.

(** A string that [strip] leaves alone is left alone by both one-sided
    strips. *)
Lemma strip_by_fixed (x : str) :
  strip_by p x = x -> lstrip_by p x = x /\ rstrip_by p x = x.
Proof.
  intros H. unfold strip_by in H.
  assert (Hl : lstrip_by p x = x).
  { unfold lstrip_by. apply dropwhile_same_length.
    pose proof (rstrip_by_length p (lstrip_by p x)) as H1.
    pose proof (dropwhile_length p x) as H2.
    rewrite H in H1. unfold lstrip_by in H1. lia. }
  split; [exact Hl | now rewrite Hl in H].
Qed.

Lemma lstrip_by_app (a b : str) :
  a <> [] -> lstrip_by p a = a -> lstrip_by p (a ++ b) = a ++ b.
Proof.
  unfold lstrip_by. destruct a as [|c t]; [contradiction|]. intros _.
  cbn [dropwhile app]. destruct (p c) eqn:E; [|reflexivity].
  intros H. pose proof (dropwhile_length p t) as Hl. rewrite H in Hl.
  cbn [List.length] in Hl. lia.
Qed.

Lemma rstrip_by_app (a b : str) :
  b <> [] -> rstrip_by p b = b -> rstrip_by p (a ++ b) = a ++ b.
Proof.
  intros Hb Hr. induction a as [|c t IH]; [exact Hr|].
  cbn [app]. rewrite rstrip_by_cons, IH.
  destruct (t ++ b) eqn:E; [|reflexivity].
  apply app_eq_nil in E as [_ E]. contradiction.
Qed.

Lemma strip_by_app (a b : str) :
  a <> [] -> b <> [] -> strip_by p a = a -> strip_by p b = b ->
  strip_by p (a ++ b) = a ++ b.
Proof.
  intros Ha Hb Sa Sb.
  apply strip_by_fixed in Sa as [La _]. apply strip_by_fixed in Sb as [_ Rb].
  unfold strip_by. rewrite lstrip_by_app by assumption.
  now apply rstrip_by_app.
Qed.

End StrippedFacts.

Section ChunkerShape.
Import Chunker.

Variable max_chunk_len : Z.

Lemma join_not_nil (l : list str) :
  l <> [] -> Forall clean l -> join (lit ". ") l <> [].
Proof.
  destruct l as [|x t]; [contradiction|]. intros _ H.
  inversion H as [|? ? (Hx & _) _]; subst.
  destruct t; cbn [join]; [exact Hx|].
  destruct x; [contradiction | discriminate].
Qed.

(** The candidate the loop measures is already trimmed: its [strip] is the
    identity. *)
Lemma strip_join_clean (l : list str) :
  Forall clean l -> strip (join (lit ". ") l) = join (lit ". ") l.
Proof.
  induction l as [|x t IH]; intros H; [reflexivity|].
  inversion H as [|? ? (Hx & Sx & _) Ht]; subst.
  destruct t as [|y t']; [exact Sx|].
  change (join (lit ". ") (x :: y :: t'))
    with (x ++ "."%char :: " "%char :: join (lit ". ") (y :: t')).
  unfold strip. apply strip_by_app; try assumption.
  - discriminate.
  - specialize (IH Ht). unfold strip in IH.
    apply strip_by_fixed in IH as [_ Rj].
    unfold strip_by, lstrip_by. cbn [dropwhile]. rewrite isspace_not_period.
    change ("."%char :: " "%char :: join (lit ". ") (y :: t'))
      with (["."%char; " "%char] ++ join (lit ". ") (y :: t')).
    apply rstrip_by_app; [|exact Rj].
    apply join_not_nil; [discriminate | exact Ht].
Qed.

Lemma step_shaped (from : str -> Prop) (a : acc) (x : str) :
  shaped_acc max_chunk_len from a -> ~ In "."%char x ->
  (truthy (strip x) = true -> from (strip x)) ->
  shaped_acc max_chunk_len from (step max_chunk_len a x).
Proof.
  intros [Hch Hcur] Hx Hfrom. unfold step.
  destruct (truthy (strip x)) eqn:Ht; cbn [negb]; [|split; assumption].
  pose proof (clean_strip x Ht Hx) as Hclean. specialize (Hfrom eq_refl).
  assert (Hall : Forall clean (current a ++ [strip x]) /\ Forall from (current a ++ [strip x])).
  { destruct Hcur as [->|(_ & Hc & Hf & _)]; cbn [app].
    - split; constructor; auto.
    - split; apply Forall_app; split; auto. }
  destruct Hall as [Hall Hallf].
  rewrite (strip_join_clean _ Hall).
  destruct (_ <=? _)%Z eqn:E; split; cbn [chunks current].
  - exact Hch.
  - right. repeat split; auto.
    + destruct (current a); discriminate.
    + left. now apply Z.leb_le.
  - destruct Hcur as [->|Hs]; cbn [truthy]; [exact Hch|].
    assert (Hne : current a <> []) by apply Hs.
    destruct (current a) eqn:Ec; [contradiction|]. cbn [truthy].
    apply Forall_app. split; [exact Hch|]. constructor; [|constructor].
    exists (s :: l). split; [exact Hs | reflexivity].
  - right. repeat split; auto; try discriminate. right. now exists (strip x).
Qed.

Lemma loop_shaped (from : str -> Prop) (raw : list str) (a : acc) :
  shaped_acc max_chunk_len from a ->
  Forall (fun x => ~ In "."%char x /\ (truthy (strip x) = true -> from (strip x))) raw ->
  shaped_acc max_chunk_len from (fold_left (step max_chunk_len) raw a).
Proof.
  revert a. induction raw as [|x t IH]; intros a Ha Hraw; [exact Ha|].
  inversion Hraw as [|? ? [Hx Hf] Ht]; subst. cbn [fold_left].
  apply IH; [now apply step_shaped | exact Ht].
Qed.

Lemma flush_shaped (from : str -> Prop) (a : acc) :
  shaped_acc max_chunk_len from a -> Forall (sealed max_chunk_len from) (flush a).
Proof.
  intros [Hch Hcur]. unfold flush.
  destruct Hcur as [->|Hs]; cbn [truthy]; [exact Hch|].
  assert (Hne : current a <> []) by apply Hs.
  destruct (current a) eqn:Ec; [contradiction|]. cbn [truthy].
  apply Forall_app. split; [exact Hch|]. constructor; [|constructor].
  exists (s :: l). split; [exact Hs | reflexivity].
Qed.

End ChunkerShape.

(** Every chunk of an over-length text is built from a non-empty list of
    clean sentences of the text, joined and sealed with a period; the list
    fits the maximum unsealed, or holds one sentence. *)
Lemma chunk_text_shape (max_chunk_len : Z) (text : str) :
  (len (strip text) > max_chunk_len)%Z ->
  Forall (Chunker.sealed max_chunk_len (fun x => In x (Chunker.sentences text)))
         (Chunker._chunk_text max_chunk_len text).
Proof.
  intros Hlong. unfold Chunker._chunk_text.
  destruct (len (strip text) <=? max_chunk_len)%Z eqn:E; [apply Z.leb_le in E; lia|].
  apply flush_shaped, loop_shaped.
  - split; [constructor | now left].
  - apply Forall_forall. intros x Hx. split.
    + pose proof (split_no_sep "." (replace "!" "." (replace "?" "." (strip text)))) as Hs.
      rewrite Forall_forall in Hs. now apply Hs.
    + intros Ht. rewrite <- (sentences_strip text).
      unfold Chunker.sentences, Chunker.fragments.
      apply filter_In. split; [|exact Ht].
      apply in_map. exact Hx.
Qed.

Section ChunkerCorollaries.
Import Chunker.

Lemma join_In (sep : str) (l : list str) (c : ascii) :
  In c (join sep l) -> In c sep \/ exists x, In x l /\ In c x.
Proof.
  induction l as [|x t IH]; [intros []|].
  destruct t as [|y t'].
  - cbn [join]. intros H. right. exists x. split; [now left | exact H].
  - change (join sep (x :: y :: t')) with (x ++ sep ++ join sep (y :: t')).
    intros H. apply in_app_or in H as [H|H].
    + right. exists x. split; [now left | exact H].
    + apply in_app_or in H as [H|H]; [now left|].
      destruct (IH H) as [Hs|(z & Hz & Hc)]; [now left|].
      right. exists z. split; [now right | exact Hc].
Qed.

(** The sentences of a text hold neither [?] nor [!]. *)
Lemma sentences_no_terminator (text x : str) :
  In x (sentences text) -> ~ In "?"%char x /\ ~ In "!"%char x /\ ~ In "."%char x.
Proof.
  unfold sentences, fragments. intros H.
  apply filter_In in H as [H _]. apply in_map_iff in H as (f & <- & Hf).
  assert (Hchars : forall c, In c (strip f) ->
            In c (replace "!" "." (replace "?" "." text)) /\ c <> "."%char).
  { intros c Hc. apply strip_by_In in Hc. split.
    - now apply (split_In "." _ f).
    - intros ->.
      pose proof (split_no_sep "." (replace "!" "." (replace "?" "." text))) as Hs.
      rewrite Forall_forall in Hs. now apply (Hs f). }
  assert (Hrep : forall c, In c (replace "!" "." (replace "?" "." text)) ->
            c <> "?"%char /\ c <> "!"%char).
  { intros c Hc. unfold replace in Hc. rewrite map_map in Hc.
    apply in_map_iff in Hc as (d & <- & _).
    destruct (ascii_eqb d "?") eqn:E1.
    - cbn. split; discriminate.
    - destruct (ascii_eqb d "!") eqn:E2.
      + split; discriminate.
      + apply ascii_eqb_neq in E1, E2. split; assumption. }
  repeat split; intros Hc; destruct (Hchars _ Hc) as [Hin Hd];
    try (destruct (Hrep _ Hin) as [H1 H2]); congruence.
Qed.

(** The fragments of the chunks are the sentences of the text. *)
Lemma chunk_text_fragments (max_chunk_len : Z) (text : str) :
  (len (strip text) > max_chunk_len)%Z ->
  flat_map fragments (_chunk_text max_chunk_len text) = sentences text.
Proof.
  intros Hlong. unfold _chunk_text.
  destruct (len (strip text) <=? max_chunk_len)%Z eqn:E; [apply Z.leb_le in E; lia|].
  destruct (loop_content max_chunk_len (sentences_raw (strip text)) (Acc [] []))
    as [Hc Hcontent]; [constructor | apply split_no_sep |].
  cbv zeta in Hcontent.
  rewrite flush_content by exact Hc.
  rewrite Hcontent. unfold content. cbn [chunks current flat_map app].
  rewrite <- (sentences_strip text). reflexivity.
Qed.

Lemma flat_map_length_ge {A B} (f : A -> list B) (l : list A) :
  Forall (fun x => f x <> []) l -> (List.length l <= List.length (flat_map f l))%nat.
Proof.
  induction l as [|x t IH]; intros H; [cbn; lia|].
  inversion H; subst. cbn [flat_map List.length]. rewrite length_app.
  specialize (IH ltac:(assumption)).
  destruct (f x); [contradiction | cbn [List.length]; lia].
Qed.

End ChunkerCorollaries.

(** X1.  What the length test does guarantee: a chunk of an over-length text
    is at most one character longer than the maximum, unless it is a single
    sentence of the text that alone exceeds the maximum, sealed with its
    period. *)
Theorem chunk_length_bound (max_chunk_len : Z) (text chunk : str) :
  (len (strip text) > max_chunk_len)%Z ->
  In chunk (Chunker._chunk_text max_chunk_len text) ->
  (len chunk <= max_chunk_len + 1)%Z \/
  exists sentence,
    In sentence (Chunker.sentences text) /\
    chunk = sentence ++ lit "." /\ (len sentence > max_chunk_len)%Z.
Proof.
  intros Hlong Hin.
  pose proof (chunk_text_shape max_chunk_len text Hlong) as Hs.
  rewrite Forall_forall in Hs.
  destruct (Hs chunk Hin) as (l & (Hne & Hclean & Hfrom & Hfit) & ->).
  assert (Hlen : len (join (lit ". ") l ++ lit ".") = (len (join (lit ". ") l) + 1)%Z).
  { unfold len. rewrite length_app. cbn. lia. }
  destruct Hfit as [Hfit|(x & ->)].
  - left. lia.
  - cbn [join] in *. destruct (Z.leb_spec (len x) max_chunk_len) as [Hle|Hgt].
    + left. lia.
    + right. exists x. inversion Hfrom; subst. repeat split; [assumption | lia].
Qed.

Lemma chunk_length_bound_witness :
  (len (lit "A sentence that is long.") <= 6 + 1)%Z \/
  exists sentence,
    In sentence (Chunker.sentences (lit "ab. cd. A sentence that is long")) /\
    lit "A sentence that is long." = sentence ++ lit "." /\ (len sentence > 6)%Z.
Proof.
  apply (chunk_length_bound 6 (lit "ab. cd. A sentence that is long")
           (lit "A sentence that is long.")).
  - reflexivity.
  - vm_compute. right. left. reflexivity.
Defined.

(** X2.  A returned chunk is empty exactly when the trimmed text is empty;
    every chunk of an over-length text ends with a period and is trimmed. *)
Theorem chunk_empty_iff_text_blank (max_chunk_len : Z) (text chunk : str) :
  In chunk (Chunker._chunk_text max_chunk_len text) ->
  (chunk = [] <-> strip text = []) /\
  strip chunk = chunk /\
  ((len (strip text) > max_chunk_len)%Z -> exists body, body <> [] /\ chunk = body ++ lit ".").
Proof.
  intros Hin.
  destruct (Z.leb_spec (len (strip text)) max_chunk_len) as [Hshort|Hlong].
  - unfold Chunker._chunk_text in Hin.
    apply Z.leb_le in Hshort. rewrite Hshort in Hin.
    destruct Hin as [<-|[]]. apply Z.leb_le in Hshort.
    split; [tauto|]. split; [apply strip_by_idem | lia].
  - assert (Hlong' : (len (strip text) > max_chunk_len)%Z) by lia.
    pose proof (chunk_text_shape max_chunk_len text Hlong') as Hs.
    rewrite Forall_forall in Hs.
    destruct (Hs chunk Hin) as (l & (Hne & Hclean & Hfrom & Hfit) & ->).
    pose proof (join_not_nil l Hne Hclean) as Hj.
    split; [|split].
    + split.
      * intros E. apply app_eq_nil in E as [_ E]. discriminate.
      * intros E. exfalso. unfold Chunker._chunk_text in Hin.
        rewrite E in Hin. cbn [len List.length Z.of_nat] in Hin.
        rewrite E in Hlong. cbn in Hlong.
        destruct (0 <=? max_chunk_len)%Z eqn:E0; [apply Z.leb_le in E0; lia|].
        cbn in Hin. exact Hin.
    + unfold strip. apply strip_by_app; try assumption; try discriminate.
      * apply (strip_join_clean l Hclean).
      * reflexivity.
    + intros _. exists (join (lit ". ") l). split; [exact Hj | reflexivity].
Qed.

Lemma chunk_empty_iff_text_blank_witness :
  (lit "Hi there." = [] <-> strip (lit " Hi there! How are you? ") = []) /\
  strip (lit "Hi there.") = lit "Hi there." /\
  ((len (strip (lit " Hi there! How are you? ")) > 10)%Z ->
   exists body, body <> [] /\ lit "Hi there." = body ++ lit ".").
Proof.
  apply (chunk_empty_iff_text_blank 10 (lit " Hi there! How are you? ") (lit "Hi there.")).
  vm_compute. left. reflexivity.
Defined.

(** X3.  The chunks of an over-length text hold neither [?] nor [!]: the
    terminators are rewritten to periods before the text is split, and a chunk
    is made of sentences, [. ] and a final period. *)
Theorem chunk_has_no_question_mark (max_chunk_len : Z) (text chunk : str) :
  (len (strip text) > max_chunk_len)%Z ->
  In chunk (Chunker._chunk_text max_chunk_len text) ->
  ~ In "?"%char chunk /\ ~ In "!"%char chunk.
Proof.
  intros Hlong Hin.
  pose proof (chunk_text_shape max_chunk_len text Hlong) as Hs.
  rewrite Forall_forall in Hs.
  destruct (Hs chunk Hin) as (l & (Hne & Hclean & Hfrom & Hfit) & ->).
  rewrite Forall_forall in Hfrom.
  assert (H : forall c, In c (join (lit ". ") l ++ lit ".") ->
                c <> "?"%char /\ c <> "!"%char).
  { intros c Hc. apply in_app_or in Hc as [Hc|Hc].
    - apply join_In in Hc as [Hc|(x & Hx & Hc)].
      + cbn in Hc. destruct Hc as [<-|[<-|[]]]; split; discriminate.
      + destruct (sentences_no_terminator text x (Hfrom x Hx)) as (H1 & H2 & _).
        split; intros ->; contradiction.
    - cbn in Hc. destruct Hc as [<-|[]]. split; discriminate. }
  split; intros Hc; destruct (H _ Hc); congruence.
Qed.

Lemma chunk_has_no_question_mark_witness :
  ~ In "?"%char (lit "How are you.") /\ ~ In "!"%char (lit "How are you.").
Proof.
  apply (chunk_has_no_question_mark 12 (lit " Hi there! How are you? ") (lit "How are you.")).
  - reflexivity.
  - vm_compute. right. left. reflexivity.
Defined.

(** X4.  An over-length text gives at most as many chunks as it has
    sentences, and no chunk at all exactly when it has no sentence. *)
Theorem chunk_count (max_chunk_len : Z) (text : str) :
  (len (strip text) > max_chunk_len)%Z ->
  (List.length (Chunker._chunk_text max_chunk_len text)
   <= List.length (Chunker.sentences text))%nat /\
  (Chunker._chunk_text max_chunk_len text = [] <-> Chunker.sentences text = []).
Proof.
  intros Hlong.
  pose proof (chunk_text_fragments max_chunk_len text Hlong) as Hf.
  pose proof (chunk_text_shape max_chunk_len text Hlong) as Hs.
  assert (Hne : Forall (fun c => Chunker.fragments c <> [])
                       (Chunker._chunk_text max_chunk_len text)).
  { apply Forall_forall. intros c Hc. rewrite Forall_forall in Hs.
    destruct (Hs c Hc) as (l & (Hl & Hclean & _) & ->).
    now rewrite fragments_sealed. }
  pose proof (flat_map_length_ge _ _ Hne) as Hlen. rewrite Hf in Hlen.
  split; [exact Hlen|]. split.
  - intros E. rewrite E in Hf. cbn in Hf. now symmetry.
  - intros E. rewrite E in Hlen. cbn in Hlen.
    destruct (Chunker._chunk_text max_chunk_len text); [reflexivity | cbn in Hlen; lia].
Qed.

Lemma chunk_count_witness :
  (List.length (Chunker._chunk_text 12 (lit " Hi there! How are you? Fine. "))
   <= List.length (Chunker.sentences (lit " Hi there! How are you? Fine. ")))%nat /\
  (Chunker._chunk_text 12 (lit " Hi there! How are you? Fine. ") = []
   <-> Chunker.sentences (lit " Hi there! How are you? Fine. ") = []).
Proof.
  apply (chunk_count 12 (lit " Hi there! How are you? Fine. ")). reflexivity.
Defined.

(** ** TextChunker: the accumulation is greedy *)

Section ChunkerGreedy.
Import Chunker.

Variable max_chunk_len : Z.

Lemma join_snoc (sep : str) (l : list str) (x : str) :
  l <> [] -> join sep (l ++ [x]) = join sep l ++ sep ++ x.
Proof.
  induction l as [|y t IH]; [contradiction|]. intros _.
  destruct t as [|z t'].
  - reflexivity.
  - change (join sep ((y :: z :: t') ++ [x]))
      with (y ++ sep ++ join sep ((z :: t') ++ [x])).
    rewrite IH by discriminate.
    change (join sep (y :: z :: t')) with (y ++ sep ++ join sep (z :: t')).
    now rewrite <- !app_assoc.
Qed.

(** Where a pair of neighbours lies in a list that grew by one at the end. *)
Lemma neighbours_snoc (l : list str) (x : str) :
  neighbours_full max_chunk_len l ->
  (forall pre c, l = pre ++ [c] -> no_room max_chunk_len c x) ->
  neighbours_full max_chunk_len (l ++ [x]).
Proof.
  intros Hl Hlast pre c1 c2 post E.
  destruct (exists_last (l := c1 :: c2 :: post)) as (m & z & Em); [discriminate|].
  rewrite Em in E. rewrite app_assoc in E.
  apply app_inj_tail in E as [El Ez]. subst z.
  destruct post as [|q post'] using rev_ind.
  - change (c1 :: [c2]) with ([c1] ++ [c2]) in Em.
    apply app_inj_tail in Em as [Em1 Em2]. subst m c2.
    apply (Hlast pre). exact El.
  - clear IHpost'.
    change (c1 :: c2 :: post' ++ [q]) with ((c1 :: c2 :: post') ++ [q]) in Em.
    apply app_inj_tail in Em as [Em1 Em2]. subst m.
    apply (Hl pre c1 c2 post'). exact El.
Qed.

Lemma len_app (a b : str) : len (a ++ b) = (len a + len b)%Z.
Proof. unfold len. rewrite length_app. lia. Qed.

Ltac split_greedy := split; [|split; [|split]].

Lemma step_greedy (a : acc) (x : str) :
  greedy_acc max_chunk_len a -> ~ In "."%char x ->
  greedy_acc max_chunk_len (step max_chunk_len a x).
Proof.
  intros (Hclean & Hne & Hpairs & Hlast) Hx. unfold step.
  destruct (truthy (strip x)) eqn:Ht; cbn [negb]; [|split_greedy; assumption].
  pose proof (clean_strip x Ht Hx) as Hcx.
  assert (Hall : Forall clean (current a ++ [strip x])).
  { apply Forall_app. split; [assumption | constructor; auto]. }
  rewrite (strip_join_clean _ Hall).
  destruct (_ <=? _)%Z eqn:E; unfold greedy_acc; cbn [chunks current].
  - split_greedy; auto.
    + intros _. destruct (current a); discriminate.
    + intros pre c s t Ec Es.
      destruct (current a) as [|s0 t0] eqn:Ecur.
      * exfalso. apply Hne; [|reflexivity]. rewrite Ec. destruct pre; discriminate.
      * cbn [app] in Es. injection Es as <- _. eapply Hlast; eauto.
  - apply Z.leb_gt in E.
    destruct (current a) as [|s0 t0] eqn:Ecur; cbn [truthy].
    + assert (Hch : chunks a = []).
      { destruct (chunks a); [reflexivity|]. exfalso. apply Hne; [discriminate | reflexivity]. }
      rewrite Hch in *. split_greedy.
      * constructor; auto.
      * discriminate.
      * exact Hpairs.
      * intros pre c s t Ec. destruct pre; discriminate.
    + split_greedy.
      * constructor; auto.
      * discriminate.
      * apply neighbours_snoc; [exact Hpairs|].
        intros pre c Ec sentence rest Ef.
        rewrite fragments_sealed in Ef by (assumption || discriminate).
        injection Ef as <- _. eapply Hlast; eauto.
      * intros pre c s t Ec Es. injection Es as <- _.
        apply app_inj_tail in Ec as [_ <-].
        rewrite join_snoc in E by discriminate.
        rewrite !len_app in *. change (len (lit ". ")) with 2%Z in E.
        change (len (lit ".")) with 1%Z. lia.
Qed.

Lemma loop_greedy (raw : list str) (a : acc) :
  greedy_acc max_chunk_len a -> Forall (fun x => ~ In "."%char x) raw ->
  greedy_acc max_chunk_len (fold_left (step max_chunk_len) raw a).
Proof.
  revert a. induction raw as [|x t IH]; intros a Ha Hraw; [exact Ha|].
  inversion Hraw; subst. cbn [fold_left].
  apply IH; [now apply step_greedy | assumption].
Qed.

Lemma flush_greedy (a : acc) :
  greedy_acc max_chunk_len a -> neighbours_full max_chunk_len (flush a).
Proof.
  intros (Hclean & Hne & Hpairs & Hlast). unfold flush.
  destruct (current a) as [|s0 t0] eqn:Ecur; cbn [truthy]; [exact Hpairs|].
  apply neighbours_snoc; [exact Hpairs|].
  intros pre c Ec sentence rest Ef.
  rewrite fragments_sealed in Ef by (assumption || discriminate).
  injection Ef as <- _. eapply Hlast; eauto.
Qed.

End ChunkerGreedy.

(** X5.  The accumulation is greedy: of two neighbouring chunks, the first
    had no room for the first sentence of the second.  Joined to the first
    chunk by a blank (the chunk already ends with its period), that sentence
    reaches past the maximum. *)
Theorem chunks_are_greedy (max_chunk_len : Z) (text : str)
    (before : list str) (chunk next : str) (after : list str) (sentence : str)
    (rest : list str) :
  Chunker._chunk_text max_chunk_len text = before ++ chunk :: next :: after ->
  Chunker.fragments next = sentence :: rest ->
  (len (chunk ++ lit " " ++ sentence) > max_chunk_len)%Z.
Proof.
  intros E Ef.
  assert (Hn : Chunker.neighbours_full max_chunk_len
                 (Chunker._chunk_text max_chunk_len text)).
  { unfold Chunker._chunk_text.
    destruct (len (strip text) <=? max_chunk_len)%Z.
    - intros pre c1 c2 post Ec. destruct pre as [|? [|? ?]]; discriminate.
    - apply flush_greedy, loop_greedy; [|apply split_no_sep].
      split; [constructor|]. split; [intros H; now contradiction H|]. split.
      + intros pre c1 c2 post Ec. destruct pre; discriminate.
      + intros pre c s t Ec. destruct pre; discriminate. }
  specialize (Hn before chunk next after E sentence rest Ef).
  rewrite !len_app. change (len (lit " ")) with 1%Z. lia.
Qed.

Lemma chunks_are_greedy_witness :
  (len (lit "Hi there." ++ lit " " ++ lit "How are you") > 12)%Z.
Proof.
  apply (chunks_are_greedy 12 (lit " Hi there! How are you? Fine. ")
           [] (lit "Hi there.") (lit "How are you.") [lit "Fine."]
           (lit "How are you") []); reflexivity.
Defined.

(** ** PunctuationNormalizer: the whitespace of the result *)

Section PairsFacts.

Variable ok : ascii -> ascii -> bool.

Lemma pairs_ok_cons (a : ascii) (x : str) :
  pairs_ok ok (a :: x) = true ->
  pairs_ok ok x = true.
Proof.
  destruct x as [|b t]; [reflexivity|]. cbn [pairs_ok].
  intros H. now apply andb_prop in H as [_ H].
Qed.

Lemma pairs_ok_cons_intro (a : ascii) (x : str) :
  (forall b, hd_error x = Some b -> ok a b = true) ->
  pairs_ok ok x = true -> pairs_ok ok (a :: x) = true.
Proof.
  destruct x as [|b t]; [reflexivity|]. intros Hh Hx.
  change (ok a b && pairs_ok ok (b :: t) = true).
  rewrite (Hh b eq_refl). exact Hx.
Qed.

Lemma pairs_ok_head (a b : ascii) (x : str) :
  pairs_ok ok (a :: b :: x) = true -> ok a b = true.
Proof.
  change (ok a b && pairs_ok ok (b :: x) = true -> ok a b = true).
  intros H. now apply andb_prop in H as [H _].
Qed.

Lemma pairs_ok_skipn (n : nat) (x : str) :
  pairs_ok ok x = true -> pairs_ok ok (skipn n x) = true.
Proof.
  revert x. induction n as [|n IH]; intros x H; [exact H|].
  destruct x as [|a t]; [reflexivity|]. cbn [skipn].
  apply IH. now apply pairs_ok_cons in H.
Qed.

Lemma pairs_ok_dropwhile (p : ascii -> bool) (x : str) :
  pairs_ok ok x = true -> pairs_ok ok (dropwhile p x) = true.
Proof.
  induction x as [|a t IH]; intros H; [reflexivity|].
  cbn [dropwhile]. destruct (p a); [|exact H].
  apply IH. now apply pairs_ok_cons in H.
Qed.

Lemma pairs_ok_rstrip (p : ascii -> bool) (x : str) :
  pairs_ok ok x = true -> pairs_ok ok (rstrip_by p x) = true.
Proof.
  induction x as [|a t IH]; intros H; [reflexivity|].
  rewrite rstrip_by_cons.
  pose proof (pairs_ok_cons _ _ H) as Ht. specialize (IH Ht).
  destruct (rstrip_by p t) as [|b r] eqn:E.
  - destruct (p a); reflexivity.
  - apply pairs_ok_cons_intro; [|exact IH].
    cbn [hd_error]. intros b' Hb. injection Hb as <-.
    destruct t as [|b0 t0]; [discriminate|].
    apply pairs_ok_head in H.
    rewrite rstrip_by_cons in E.
    destruct (rstrip_by p t0); [destruct (p b0); [discriminate|] |];
      injection E as <- _; exact H.
Qed.

Lemma pairs_ok_strip (p : ascii -> bool) (x : str) :
  pairs_ok ok x = true -> pairs_ok ok (strip_by p x) = true.
Proof.
  intros H. unfold strip_by, lstrip_by.
  now apply pairs_ok_rstrip, pairs_ok_dropwhile.
Qed.

(** What [pairs_ok] says about a place inside the string. *)
Lemma pairs_ok_at (pre : str) (a b : ascii) (post : str) :
  pairs_ok ok (pre ++ a :: b :: post) = true -> ok a b = true.
Proof.
  induction pre as [|c t IH]; cbn [app].
  - apply pairs_ok_head.
  - intros H. apply IH. now apply pairs_ok_cons in H.
Qed.

End PairsFacts.

Section RunFacts.
Import Re.

Variables p q : ascii -> bool.
Hypothesis q_not_p : forall c, q c = true -> p c = false.

Lemma run_then_shift (x : str) (n : nat) :
  run_then p q x (S n) = option_map S (run_then p q x n).
Proof.
  revert n. induction x as [|c t IH]; intros n; [reflexivity|].
  cbn [run_then]. destruct (p c); [apply IH|]. destruct (q c); reflexivity.
Qed.

(** Where the run ends. *)
Lemma run_then_split (x : str) (n : nat) :
  run_then p q x 0 = Some n ->
  exists c rest, skipn n x = c :: rest /\ q c = true.
Proof.
  revert n. induction x as [|c t IH]; intros n; [discriminate|].
  cbn [run_then]. destruct (p c) eqn:Hp.
  - rewrite run_then_shift. destruct (run_then p q t 0) as [j|] eqn:E; [|discriminate].
    cbn [option_map]. intros H. injection H as <-. cbn [skipn]. now apply IH.
  - destruct (q c) eqn:Hq; [|discriminate]. intros H. injection H as <-.
    exists c, t. split; [reflexivity | exact Hq].
Qed.

Lemma run_then_none_head (x : str) (c : ascii) :
  run_then p q x 0 = None -> hd_error x = Some c -> q c = false.
Proof.
  destruct x as [|a t]; [discriminate|]. cbn [run_then hd_error].
  intros H E. injection E as <-.
  destruct (q a) eqn:Hq; [|reflexivity].
  rewrite (q_not_p _ Hq) in H. discriminate.
Qed.

(** The match of [p*(q)] at a position: the run of [p], then one character of
    [q], which is the group. *)
Lemma star_then_group (r : str) :
  forall pv n g,
    option_map (fun st => (pos st, g1 st))
      (star p (fun st => m false (Group (Cls q)) st Some) pv r n g)
    = option_map (fun j => (S j, Some (j, S j))) (run_then p q r n).
Proof.
  induction r as [|c t IH]; intros pv n g; [reflexivity|].
  cbn [star run_then]. destruct (p c) eqn:Hp.
  - specialize (IH (Some c) (S n) g).
    destruct (star p _ (Some c) t (S n) g) as [st|]; [exact IH|].
    rewrite <- IH. cbn [m rest].
    destruct (q c) eqn:Hq; [|reflexivity].
    rewrite (q_not_p _ Hq) in Hp. discriminate.
  - cbn [m rest pos prev g1]. destruct (q c); reflexivity.
Qed.

Lemma match_at_run_then (pv : option ascii) (x : str) :
  match_at false (Seq (Star p) (Group (Cls q))) pv x
  = option_map (fun j => (S j, Some (j, S j))) (run_then p q x 0).
Proof.
  unfold match_at. cbn [m prev rest pos g1].
  pose proof (star_then_group x pv 0 None) as H.
  destruct (star p _ pv x 0 None) as [st|]; cbn [option_map] in H |- *;
    rewrite <- H; reflexivity.
Qed.

End RunFacts.

Section EndFacts.

Variable p : ascii -> bool.

Lemma dropwhile_hd (x : str) (c : ascii) (t : str) :
  dropwhile p x = c :: t -> p c = false.
Proof.
  induction x as [|a x' IH]; [discriminate|]. cbn [dropwhile].
  destruct (p a) eqn:E; [exact IH|]. intros H. injection H as <- _. exact E.
Qed.

Lemma strip_by_hd (x : str) (c : ascii) (t : str) :
  strip_by p x = c :: t -> p c = false.
Proof.
  unfold strip_by. rewrite <- lstrip_rstrip_comm. unfold lstrip_by.
  apply dropwhile_hd.
Qed.

Lemma strip_by_last (x pre : str) (c : ascii) :
  strip_by p x = pre ++ [c] -> p c = false.
Proof.
  unfold strip_by, rstrip_by. intros H.
  apply (f_equal (@rev ascii)) in H.
  rewrite rev_involutive, rev_app_distr in H. cbn [rev app] in H.
  now apply dropwhile_hd in H.
Qed.

Lemma skipn_S_tail (n : nat) (x : str) (c : ascii) (t : str) :
  skipn n x = c :: t -> skipn (S n) x = t.
Proof.
  revert x. induction n as [|n IH]; intros x H.
  - cbn [skipn] in H. subst x. reflexivity.
  - destruct x as [|a x']; [discriminate|]. cbn [skipn] in H |- *.
    destruct x' as [|b x'']; [destruct n; discriminate|].
    exact (IH _ H).
Qed.

End EndFacts.

Section CollapseFacts.
Import Re.

Variable p : ascii -> bool.

(** [X*] with nothing after it takes the whole leading run of the class. *)
Lemma star_run (r : str) :
  forall pv n g, exists st j,
    star p Some pv r n g = Some st /\ pos st = (n + j)%nat /\
    skipn j r = dropwhile p r.
Proof.
  induction r as [|c t IH]; intros pv n g; cbn [star dropwhile].
  - eexists; exists 0%nat; split; [reflexivity | split; [cbn; lia | reflexivity]].
  - destruct (p c).
    + destruct (IH (Some c) (S n) g) as (st & j & -> & Hp & Hs).
      exists st, (S j). split; [reflexivity | split; [lia | exact Hs]].
    + eexists; exists 0%nat; split; [reflexivity | split; [cbn; lia | reflexivity]].
Qed.

Lemma match_at_plus_run (pv : option ascii) (c : ascii) (t : str) :
  p c = true ->
  exists k g, match_at false (Plus p) pv (c :: t) = Some (S k, g) /\
              skipn k t = dropwhile p t.
Proof.
  intros Hc. unfold match_at. cbn [m rest pos g1 prev]. rewrite Hc.
  destruct (star_run t (Some c) 1 None) as (st & j & -> & Hp & Hs).
  exists j, (g1 st). rewrite Hp. split; [reflexivity | exact Hs].
Qed.

(** After [re.sub(X+, " ", x)] no two characters of the class [X] are
    neighbours; and the result starts with one only where the text does. *)
Lemma sub_plus_spaced (x : str) :
  forall pv skip,
    let o := sub_from false (Plus p) (text " ") pv skip x in
    pairs_ok (fun a b => negb (p a && p b)) o = true /\
    (forall d, hd_error o = Some d -> p d = true ->
               exists e, hd_error (skipn skip x) = Some e /\ p e = true).
Proof.
  induction x as [|c t IH]; intros pv skip; cbv zeta.
  - destruct skip; cbn; split; try reflexivity; discriminate.
  - destruct skip as [|k]; cbn [sub_from].
    + destruct (p c) eqn:Hc.
      * destruct (match_at_plus_run pv c t Hc) as (k & g & -> & Hs).
        cbn [expand text lit list_ascii_of_string map flat_map app].
        destruct (IH (Some c) k) as [Hok Hhd]. split.
        -- apply pairs_ok_cons_intro; [|exact Hok].
           intros b Hb. destruct (p b) eqn:Hpb; [|now rewrite andb_false_r].
           destruct (Hhd b Hb Hpb) as (e & He & Hpe).
           rewrite Hs in He. destruct (dropwhile p t) as [|e' r] eqn:E; [discriminate|].
           cbn [hd_error] in He. injection He as ->.
           apply dropwhile_hd in E. congruence.
        -- intros d _ _. exists c. split; [reflexivity | exact Hc].
      * pose proof (match_at_plus p pv (c :: t)) as Hm. cbn beta iota in Hm.
        rewrite Hc in Hm. rewrite Hm.
        destruct (IH (Some c) 0%nat) as [Hok _]. split.
        -- apply pairs_ok_cons_intro; [|exact Hok].
           intros b _. now rewrite Hc.
        -- cbn [hd_error]. intros d Hd Hpd. injection Hd as <-. congruence.
    + exact (IH (Some c) k).
Qed.

End CollapseFacts.

Section TightenFacts.
Import Re.

Variables p q : ascii -> bool.
Hypothesis q_not_p : forall c, q c = true -> p c = false.

(** After [re.sub(X*(Q), \1, x)], for a class [Q] disjoint from [X], no
    character of [X] stands before one of [Q]; neighbours in [X] are not
    created; and the result starts with the character the text starts with
    unless a match starts there. *)
Lemma sub_tighten (x : str) :
  forall pv skip,
    let y := skipn skip x in
    let o := sub_from false (Seq (Star p) (Group (Cls q))) [RGroup1] pv skip x in
    pairs_ok (fun a b => negb (p a && q b)) o = true /\
    (pairs_ok (fun a b => negb (p a && p b)) y = true ->
     pairs_ok (fun a b => negb (p a && p b)) o = true) /\
    match run_then p q y 0 with
    | None => hd_error o = hd_error y
    | Some _ => exists d, hd_error o = Some d /\ q d = true
    end.
Proof.
  induction x as [|c t IH]; intros pv skip; cbv zeta.
  - destruct skip; cbn [sub_from skipn]; [rewrite match_at_run_then by exact q_not_p|];
      cbn; auto.
  - destruct skip as [|k]; cbn [sub_from skipn]; [|exact (IH (Some c) k)].
    rewrite match_at_run_then by exact q_not_p.
    destruct (run_then p q (c :: t) 0) as [j|] eqn:Hr; cbn [option_map].
    + destruct (run_then_split p q _ _ Hr) as (e & r & Hs & Hq).
      cbn [expand flat_map group_text]. rewrite app_nil_r.
      replace (S j - j)%nat with 1%nat by lia. rewrite Hs. cbn [firstn app].
      apply skipn_S_tail in Hs as Hs'. cbn [skipn] in Hs'.
      destruct (IH (Some c) j) as (Ht & Hsp & _).
      pose proof (q_not_p _ Hq) as Hpe.
      split; [|split].
      * apply pairs_ok_cons_intro; [|exact Ht]. intros b _. now rewrite Hpe.
      * intros Hy. apply pairs_ok_cons_intro.
        -- intros b _. now rewrite Hpe.
        -- apply Hsp. apply pairs_ok_skipn. now apply pairs_ok_cons in Hy.
      * exists e. split; [reflexivity | exact Hq].
    + destruct (IH (Some c) 0%nat) as (Ht & Hsp & Hhd). cbn [skipn] in Hsp, Hhd.
      split; [|split]; [| |reflexivity].
      * apply pairs_ok_cons_intro; [|exact Ht].
        intros b Hb. destruct (p c) eqn:Hc; [|reflexivity].
        destruct (q b) eqn:Hqb; [|reflexivity]. exfalso.
        assert (Hn : run_then p q t 0 = None).
        { cbn [run_then] in Hr. rewrite Hc, run_then_shift in Hr.
          destruct (run_then p q t 0); [discriminate | reflexivity]. }
        rewrite Hn in Hhd. rewrite Hhd in Hb.
        pose proof (run_then_none_head p q q_not_p _ _ Hn Hb). congruence.
      * intros Hy. apply pairs_ok_cons_intro; [|apply Hsp; now apply pairs_ok_cons in Hy].
        intros b Hb. destruct (p c) eqn:Hc; [|reflexivity].
        destruct (p b) eqn:Hpb; [|reflexivity]. exfalso.
        destruct (run_then p q t 0) eqn:Hn.
        -- destruct Hhd as (d & Hd & Hqd). rewrite Hd in Hb. injection Hb as ->.
           apply q_not_p in Hqd. congruence.
        -- rewrite Hhd in Hb. destruct t as [|b' t']; [discriminate|].
           cbn [hd_error] in Hb. injection Hb as ->.
           apply pairs_ok_head in Hy. rewrite Hc, Hpb in Hy. discriminate.
Qed.

End TightenFacts.

Section NormalizerWhitespace.
Import Re Normalizer.

Lemma punct_not_space (c : ascii) : one_of ".,?!" c = true -> isspace c = false.
Proof.
  unfold one_of. cbn [lit list_ascii_of_string mem]. intros H.
  repeat (apply orb_prop in H as [H|H]; [apply ascii_eqb_eq in H; subst c; reflexivity|]).
  discriminate.
Qed.

(** Before the final trimming the text is already single-spaced and has no
    blank before a sentence mark. *)
Lemma tightened_spacing (x : str) :
  single_spaced (tighten_sentence_punct (collapse_whitespace x)) = true /\
  no_space_before (one_of ".,?!") (tighten_sentence_punct (collapse_whitespace x)) = true.
Proof.
  unfold single_spaced, no_space_before, tighten_sentence_punct, collapse_whitespace, sub.
  cbn [seq].
  destruct (sub_tighten isspace (one_of ".,?!") punct_not_space
              (sub_from false (Plus isspace) (text " ") None 0 x) None 0)
    as (Ht & Hsp & _).
  split; [|exact Ht]. apply Hsp. cbn [skipn].
  apply (sub_plus_spaced isspace x None 0).
Qed.

Lemma normalize_spacing (text : str) :
  single_spaced (normalize_pronounced_punctuation text) = true /\
  no_space_before (one_of ".,?!") (normalize_pronounced_punctuation text) = true.
Proof.
  unfold normalize_pronounced_punctuation. cbv zeta.
  match goal with
  | |- context [tighten_sentence_punct (collapse_whitespace ?z)] =>
      destruct (tightened_spacing z) as [H1 H2]
  end.
  unfold single_spaced, no_space_before, strip in *.
  split; now do 2 apply pairs_ok_strip.
Qed.

End NormalizerWhitespace.

(** Every whitespace character of a result of
    [normalize_pronounced_punctuation] is the blank, and it is neither the
    first nor the last character of the result. *)
Theorem normalize_whitespace_is_inner_blank (text pre : str) (c : ascii) (post : str) :
  Normalizer.normalize_pronounced_punctuation text = pre ++ c :: post ->
  isspace c = true ->
  c = " "%char /\ pre <> [] /\ post <> [].
Proof.
  intros E Hc. split; [|split].
  - assert (Hin : In c (Normalizer.normalize_pronounced_punctuation text)).
    { rewrite E. apply in_elt. }
    unfold Normalizer.normalize_pronounced_punctuation in Hin. cbv zeta in Hin.
    apply strip_by_In, strip_by_In in Hin.
    unfold Normalizer.tighten_sentence_punct, Re.sub in Hin.
    apply sub_group_chars in Hin.
    unfold Normalizer.collapse_whitespace, Re.sub in Hin.
    apply sub_plus_chars in Hin.
    destruct Hin as [H|[_ H]]; [exact H | congruence].
  - intros ->. unfold Normalizer.normalize_pronounced_punctuation in E. cbv zeta in E.
    apply strip_by_hd in E. congruence.
  - intros ->. unfold Normalizer.normalize_pronounced_punctuation in E. cbv zeta in E.
    apply strip_by_last in E. congruence.
Qed.

Lemma normalize_whitespace_is_inner_blank_witness :
  Normalizer.normalize_pronounced_punctuation (lit "x new line y")
  = lit "x" ++ " "%char :: lit "y" /\
  isspace " " = true /\
  (" "%char = " "%char /\ lit "x" <> [] /\ lit "y" <> []).
Proof.
  split; [vm_compute; reflexivity | split; [reflexivity|]].
  apply (normalize_whitespace_is_inner_blank (lit "x new line y") (lit "x") " " (lit "y"));
    vm_compute; reflexivity.
Defined.

(** In a result of [normalize_pronounced_punctuation] the character after a
    whitespace character is never a whitespace character and never one of the
    sentence marks [. , ? !]. *)
Theorem normalize_single_spaced (text pre : str) (a b : ascii) (post : str) :
  Normalizer.normalize_pronounced_punctuation text = pre ++ a :: b :: post ->
  isspace a = true ->
  isspace b = false /\ ~ In b (lit ".,?!").
Proof.
  intros E Ha. destruct (normalize_spacing text) as [H1 H2].
  unfold single_spaced, no_space_before in H1, H2. rewrite E in H1, H2.
  apply pairs_ok_at in H1, H2. rewrite Ha in H1, H2. cbn [andb negb] in H1, H2.
  split.
  - destruct (isspace b); [discriminate | reflexivity].
  - intros Hin. unfold Re.one_of in H2.
    cbn [lit list_ascii_of_string In] in Hin. cbn [lit list_ascii_of_string mem] in H2.
    destruct Hin as [<-|[<-|[<-|[<-|[]]]]]; discriminate.
Qed.

Lemma normalize_single_spaced_witness :
  Normalizer.normalize_pronounced_punctuation (lit "wait   comma  go on  !")
  = lit "wait,go" ++ " "%char :: "o"%char :: lit "n!" /\
  isspace " " = true /\
  (isspace "o" = false /\ ~ In "o"%char (lit ".,?!")).
Proof.
  split; [vm_compute; reflexivity | split; [reflexivity|]].
  apply (normalize_single_spaced (lit "wait   comma  go on  !") (lit "wait,go")
           " " "o" (lit "n!")); vm_compute; reflexivity.
Defined.

(** ** PunctuationNormalizer: texts without a word *)

Section WordFree.
Import Re Normalizer.

(** A pattern that opens with [\b] matches nowhere between two characters
    that are not word characters. *)
Lemma match_at_needs_word (ic : bool) (r : regex) (pv : option ascii) (x : str) :
  starts_at_boundary r = true ->
  isword_opt pv = false -> isword_opt (hd_error x) = false ->
  match_at ic r pv x = None.
Proof.
  destruct r as [| | | |a b| | | |]; try discriminate.
  destruct a; try discriminate. intros _ Hp Hx.
  unfold match_at. cbn [m]. unfold at_boundary. cbn [prev rest].
  rewrite Hp, Hx. reflexivity.
Qed.

Lemma sub_needs_word (ic : bool) (r : regex) (repl : list ritem) (x : str) :
  starts_at_boundary r = true -> word_free x = true ->
  forall pv, isword_opt pv = false -> sub_from ic r repl pv 0 x = x.
Proof.
  intros Hr. induction x as [|c t IH]; intros Hx pv Hp; cbn [sub_from].
  - now rewrite match_at_needs_word.
  - cbn [word_free forallb] in Hx. apply andb_prop in Hx as [Hc Ht].
    apply negb_true_iff in Hc.
    rewrite match_at_needs_word by (try assumption; exact Hc).
    f_equal. apply IH; [exact Ht | exact Hc].
Qed.

Lemma apply_rules_needs_word (rules : list rule) (x : str) :
  forallb (fun r => starts_at_boundary (fst r)) rules = true ->
  word_free x = true -> apply_rules rules x = x.
Proof.
  unfold apply_rules. induction rules as [|[pattern repl] rules IH]; intros Hr Hx;
    [reflexivity|].
  cbn [forallb fst] in Hr. apply andb_prop in Hr as [Hp Hr].
  cbn [fold_left]. unfold sub at 2.
  rewrite sub_needs_word by (try assumption; reflexivity).
  now apply IH.
Qed.

Lemma tables_start_at_boundary :
  forallb (fun r => starts_at_boundary (fst r)) _DOT_EXT_PATTERNS = true /\
  forallb (fun r => starts_at_boundary (fst r)) _PUNCT_PATTERNS = true.
Proof. split; vm_compute; reflexivity. Qed.

Lemma tables_need_word (x : str) :
  word_free x = true ->
  apply_rules _PUNCT_PATTERNS (apply_rules _DOT_EXT_PATTERNS x) = x.
Proof.
  intros Hx. destruct tables_start_at_boundary as [H1 H2].
  rewrite (apply_rules_needs_word _ _ H1 Hx).
  exact (apply_rules_needs_word _ _ H2 Hx).
Qed.

(** A substitution writes characters of its subject and literal characters
    of its replacement only. *)
Lemma sub_chars (ic : bool) (r : regex) (repl : list ritem) (x : str) :
  forall pv skip c,
    In c (sub_from ic r repl pv skip x) -> In c x \/ In (RChr c) repl.
Proof.
  assert (Hex : forall y g c, In c (expand repl y g) -> In c y \/ In (RChr c) repl).
  { intros y g c H. unfold expand in H. apply in_flat_map in H as (i & Hi & Hc).
    destruct i as [d|].
    - destruct Hc as [<-|[]]. now right.
    - left. now apply group_text_In in Hc. }
  induction x as [|a t IH]; intros pv skip c Hin.
  - destruct skip; cbn [sub_from] in Hin; [|destruct Hin].
    destruct (match_at ic r pv []) as [[n g]|]; [|destruct Hin].
    rewrite app_nil_r in Hin. eauto.
  - destruct skip as [|k]; cbn [sub_from] in Hin.
    + destruct (match_at ic r pv (a :: t)) as [[n g]|].
      * apply in_app_or in Hin as [Hin|Hin]; [eauto|].
        destruct n as [|k].
        -- destruct Hin as [<-|Hin]; [left; now left|].
           destruct (IH _ _ _ Hin); [left; now right | now right].
        -- destruct (IH _ _ _ Hin); [left; now right | now right].
      * destruct Hin as [<-|Hin]; [left; now left|].
        destruct (IH _ _ _ Hin); [left; now right | now right].
    + destruct (IH _ _ _ Hin); [left; now right | now right].
Qed.

(** [X*] followed by a continuation that fails on every later part of the
    text fails. *)
Lemma star_none (p : ascii -> bool) (k : mstate -> option mstate) (r : str) :
  forall pv n g,
    (forall pv' r' n', incl r' r -> k (MS pv' r' n' g) = None) ->
    star p k pv r n g = None.
Proof.
  induction r as [|c t IH]; intros pv n g Hk; cbn [star].
  - apply Hk, incl_refl.
  - rewrite IH.
    + destruct (p c); apply Hk, incl_refl.
    + intros pv' r' n' Hi. apply Hk. now apply incl_tl.
Qed.

(** The pattern of [tighten_char] matches nowhere in a text without the
    character. *)
Lemma match_at_tighten_char (c : ascii) (pv : option ascii) (x : str) :
  ~ In c x ->
  match_at false (seq [Star isspace; Chr c; Star isspace]) pv x = None.
Proof.
  intros Hc. unfold match_at. cbn [seq m prev rest pos g1].
  rewrite star_none; [reflexivity|].
  intros pv' r' n' Hi. cbn [m rest].
  destruct r' as [|d t]; [reflexivity|].
  unfold chr_eqb. destruct (ascii_eqb c d) eqn:E; [|reflexivity].
  apply ascii_eqb_eq in E. subst d. exfalso. apply Hc, Hi. now left.
Qed.

Lemma tighten_char_absent (c : ascii) (x : str) :
  ~ In c x -> tighten_char c x = x.
Proof.
  unfold tighten_char, sub. generalize (@None ascii).
  induction x as [|a t IH]; intros pv Hc; cbn [sub_from];
    rewrite match_at_tighten_char by exact Hc; [reflexivity|].
  f_equal. apply IH. intros H. apply Hc. now right.
Qed.

Lemma space_not_word (c : ascii) : isspace c = true -> isword c = false.
Proof.
  destruct c as [[] [] [] [] [] [] [] []]; vm_compute; intros H;
    first [reflexivity | discriminate H].
Qed.

Lemma blank_word_free (x : str) : blank x -> word_free x = true.
Proof.
  intros H. apply forallb_forall. intros c Hc.
  now rewrite (space_not_word c (H c Hc)).
Qed.

Lemma blank_tighten_brackets (x : str) : blank x -> tighten_brackets x = x.
Proof.
  intros H. unfold tighten_brackets. cbv zeta.
  assert (Hn : forall c, isspace c = false -> ~ In c x).
  { intros c Hc Hin. apply H in Hin. congruence. }
  rewrite (tighten_char_absent "(" x) by (apply Hn; reflexivity).
  rewrite (tighten_char_absent ")" x) by (apply Hn; reflexivity).
  rewrite (tighten_char_absent "[" x) by (apply Hn; reflexivity).
  rewrite (tighten_char_absent "]" x) by (apply Hn; reflexivity).
  rewrite (tighten_char_absent "{" x) by (apply Hn; reflexivity).
  apply tighten_char_absent, Hn. reflexivity.
Qed.

Lemma blank_strip (x : str) : blank x -> strip x = [].
Proof.
  intros H. apply strip_by_all, forallb_forall. exact H.
Qed.

End WordFree.

(** The two tables of spoken names rewrite nothing in a text that has no
    word character (letter, digit or underscore): every pattern of the tables
    opens with a word boundary. *)
Theorem spoken_names_need_a_word (text : str) :
  forallb (fun c => negb (isword c)) text = true ->
  Normalizer.apply_rules Normalizer._PUNCT_PATTERNS
    (Normalizer.apply_rules Normalizer._DOT_EXT_PATTERNS text) = text.
Proof.
  intros Hx. destruct tables_start_at_boundary as [H1 H2].
  rewrite (apply_rules_needs_word _ _ H1 Hx).
  exact (apply_rules_needs_word _ _ H2 Hx).
Qed.

Lemma spoken_names_need_a_word_witness :
  forallb (fun c => negb (isword c)) (lit "( + ) ?!") = true /\
  Normalizer.apply_rules Normalizer._PUNCT_PATTERNS
    (Normalizer.apply_rules Normalizer._DOT_EXT_PATTERNS (lit "( + ) ?!"))
  = lit "( + ) ?!".
Proof.
  split; [reflexivity|].
  apply (spoken_names_need_a_word (lit "( + ) ?!")). reflexivity.
Defined.

(** A text of whitespace only, the empty text included, is normalised to
    the empty text. *)
Theorem normalize_blank_text (text : str) :
  forallb isspace text = true ->
  Normalizer.normalize_pronounced_punctuation text = [].
Proof.
  intros H. assert (Hb : blank text) by (intros c Hc; exact (proj1 (forallb_forall _ _) H c Hc)).
  unfold Normalizer.normalize_pronounced_punctuation. cbv zeta.
  rewrite (tables_need_word text (blank_word_free text Hb)).
  set (z1 := Normalizer.tighten_symbols text).
  assert (H1 : blank z1).
  { intros c Hc. unfold z1, Normalizer.tighten_symbols, Re.sub in Hc.
    apply sub_group_chars in Hc. now apply Hb. }
  rewrite (blank_tighten_brackets z1 H1).
  set (z2 := Normalizer.collapse_blanks z1).
  assert (H2 : blank z2).
  { intros c Hc. unfold z2, Normalizer.collapse_blanks, Re.sub in Hc.
    apply sub_plus_chars in Hc as [->|[Hc _]]; [reflexivity | now apply H1]. }
  set (z3 := Normalizer.space_operators z2).
  assert (H3 : blank z3).
  { intros c Hc. unfold z3, Normalizer.space_operators, Re.sub in Hc.
    apply sub_chars in Hc as [Hc|Hc]; [now apply H2|].
    destruct Hc as [Hc|[Hc|[Hc|[]]]]; try discriminate Hc;
      injection Hc as <-; reflexivity. }
  set (z4 := Normalizer.collapse_whitespace z3).
  assert (H4 : blank z4).
  { intros c Hc. unfold z4, Normalizer.collapse_whitespace, Re.sub in Hc.
    apply sub_plus_chars in Hc as [->|[Hc _]]; [reflexivity | now apply H3]. }
  set (z5 := Normalizer.tighten_sentence_punct z4).
  assert (H5 : blank z5).
  { intros c Hc. unfold z5, Normalizer.tighten_sentence_punct, Re.sub in Hc.
    apply sub_group_chars in Hc. now apply H4. }
  rewrite (blank_strip z5 H5). reflexivity.
Qed.

Lemma normalize_blank_text_witness :
  forallb isspace [" "; "009"; "010"; " "]%char = true /\
  Normalizer.normalize_pronounced_punctuation [" "; "009"; "010"; " "]%char = [].
Proof.
  split; [reflexivity|].
  apply (normalize_blank_text [" "; "009"; "010"; " "]%char). reflexivity.
Defined.

(** ** WebsiteResolver: the candidates of [get_candidates] *)

Lemma firstn_In_list {A} (n : nat) (l : list A) (x : A) : In x (firstn n l) -> In x l.
Proof.
  intros H. rewrite <- (firstn_skipn n l). apply in_or_app. now left.
Qed.

Section RankFacts.
Import Resolver.

Lemma insert_desc_In (x y : str * Q) (l : list (str * Q)) :
  In y (insert_desc x l) <-> y = x \/ In y l.
Proof.
  induction l as [|a t IH]; cbn [insert_desc].
  - cbn. intuition.
  - destruct (Qle_bool (snd x) (snd a)); cbn [In]; [rewrite IH|]; intuition.
Qed.

Lemma sort_desc_In (l : list (str * Q)) (y : str * Q) :
  In y (sort_desc l) <-> In y l.
Proof.
  unfold sort_desc.
  assert (H : forall acc, In y (fold_left (fun sorted x => insert_desc x sorted) l acc)
                          <-> In y l \/ In y acc).
  { induction l as [|a t IH]; intros acc; cbn [fold_left].
    - cbn. intuition.
    - rewrite IH, insert_desc_In. cbn [In]. intuition. }
  rewrite H. cbn. intuition.
Qed.



Lemma ranked_app (a b : list (str * Q)) :
  ranked (a ++ b) ->
  ranked a /\ ranked b /\ forall x y, In x a -> In y b -> (snd y <= snd x)%Q.
Proof.
  induction a as [|c t IH]; cbn [app ranked].
  - intros H. split; [exact I | split; [exact H | intros x y []]].
  - intros [Hc Ht]. destruct (IH Ht) as (H1 & H2 & H3).
    split; [split; [|exact H1] | split; [exact H2|]].
    + intros d Hd. apply Hc, in_or_app. now left.
    + intros x y [<-|Hx] Hy; [|now apply H3].
      apply Hc, in_or_app. now right.
Qed.

Lemma ranked_at (pre : list (str * Q)) (a : str * Q) (mid : list (str * Q))
    (b : str * Q) (post : list (str * Q)) :
  ranked (pre ++ a :: mid ++ b :: post) -> (snd b <= snd a)%Q.
Proof.
  intros H. apply ranked_app in H as (_ & H & _).
  cbn [ranked] in H. destruct H as [H _].
  apply H, in_or_app. right. now left.
Qed.

End RankFacts.

Section SliceFacts.
Import Resolver.

(** A slice [l[:n]] is a prefix of [l]. *)
Lemma slice_to_firstn {A} (n : Z) (l : list A) :
  exists m, slice_to n l = firstn m l /\ ((0 <= n)%Z -> m = Z.to_nat n).
Proof.
  unfold slice_to. destruct (0 <=? n)%Z eqn:E.
  - exists (Z.to_nat n). split; [reflexivity | intros _; reflexivity].
  - exists (List.length l - Z.to_nat (- n))%nat. split; [reflexivity|].
    intros H. apply Z.leb_gt in E. lia.
Qed.




End SliceFacts.

Section CandidateFacts.
Import Resolver.

Variable websites : list (str * str).
Variable similarity : str -> str -> Q.

(** The scored keys before sorting. *)
Lemma scores_In (name : str) (min_score : Q) (key : str) (score : Q) :
  In (key, score)
     (flat_map (fun '(key, _) =>
                  let score := similarity name key in
                  if Qle_bool min_score score then [(key, score)] else [])
               websites)
  <-> In key (map fst websites) /\ score = similarity name key /\
      (min_score <= score)%Q.
Proof.
  rewrite in_flat_map. split.
  - intros ([k v] & Hin & H). cbv zeta in H.
    destruct (Qle_bool min_score (similarity name k)) eqn:E; [|destruct H].
    destruct H as [H|[]]. injection H as <- <-.
    split; [|split; [reflexivity | now apply Qle_bool_iff]].
    apply in_map_iff. now exists (k, v).
  - intros (Hk & -> & Hle). apply in_map_iff in Hk as ([k v] & <- & Hin).
    exists (k, v). split; [exact Hin|]. cbv zeta. cbn [fst] in *.
    apply Qle_bool_iff in Hle. rewrite Hle. now left.
Qed.


Lemma candidates_sound (name : str) (min_score : Q) (max_results : Z)
    (key : str) (score : Q) :
  In (key, score) (get_candidates websites similarity name min_score max_results) ->
  In key (map fst websites) /\ score = similarity name key /\ (min_score <= score)%Q.
Proof.
  unfold get_candidates. cbv zeta. intros H.
  destruct (slice_to_firstn max_results (sort_desc
              (flat_map (fun '(key, _) =>
                 if Qle_bool min_score (similarity name key)
                 then [(key, similarity name key)] else []) websites)))
    as (m & Em & _).
  rewrite Em in H.
  apply firstn_In_list in H. apply (proj1 (sort_desc_In _ _)) in H.
  exact (proj1 (scores_In _ _ _ _) H).
Qed.


(** A candidate key is a key of the dictionary: looking it up succeeds. *)
Lemma lookup_key (key : str) :
  In key (map fst websites) ->
  exists url, lookup websites key = Some url /\ In url (map snd websites).
Proof.
  induction websites as [|[k v] t IH]; [intros []|].
  cbn [map fst snd In lookup]. intros H.
  unfold str_eqb. destruct (list_eq_dec ascii_dec k key) as [E|N].
  - exists v. split; [reflexivity | now left].
  - destruct H as [H|H]; [contradiction|].
    destruct (IH H) as (url & Hl & Hu). exists url. split; [exact Hl | now right].
Qed.

Lemma lookup_value (key url : str) :
  lookup websites key = Some url -> In url (map snd websites).
Proof.
  induction websites as [|[k v] t IH]; [discriminate|].
  cbn [lookup map snd In]. destruct (str_eqb k key).
  - intros H. injection H as <-. now left.
  - intros H. right. now apply IH.
Qed.

End CandidateFacts.





(** ** WebsiteResolver: what a run of [openweb] opens and logs *)

Section YieldsFacts.
Import Runtime.

Ltac quiet_by k :=
  unfold quiet; cbn [browser disk now stdin snd];
  split; [reflexivity | split; [reflexivity | split; [reflexivity | exists k]]].

Lemma quiet_refl (w : world) : quiet w w.
Proof. quiet_by 0%nat. reflexivity. Qed.

Lemma quiet_trans (w1 w2 w3 : world) : quiet w1 w2 -> quiet w2 w3 -> quiet w1 w3.
Proof.
  intros (A1 & A2 & A3 & k1 & A4) (B1 & B2 & B3 & k2 & B4).
  split; [congruence | split; [congruence | split; [congruence|]]].
  exists (k2 + k1)%nat. now rewrite B4, A4, skipn_skipn.
Qed.

Lemma yields_ret {A} (a : A) (Q : A -> Prop) : Q a -> yields (ret a) Q.
Proof. intros H w. split; [apply quiet_refl | exact H]. Qed.

Lemma yields_bind {A B} (c : M A) (f : A -> M B) (P : A -> Prop) (Q : B -> Prop) :
  yields c P -> (forall a, P a -> yields (f a) Q) -> yields (bind c f) Q.
Proof.
  intros Hc Hf w. unfold bind. destruct (Hc w) as [Hq Hr].
  destruct (c w) as [[a|e] w'] eqn:E; cbn [fst snd] in *.
  - destruct (Hf a Hr w') as [Hq' Hr']. split; [|exact Hr'].
    now apply quiet_trans with w'.
  - split; assumption.
Qed.

Lemma yields_weaken {A} (c : M A) (P Q : A -> Prop) :
  yields c P -> (forall a, P a -> Q a) -> yields c Q.
Proof.
  intros Hc H w. destruct (Hc w) as [Hq Hr]. split; [exact Hq|].
  destruct (fst (c w)); auto.
Qed.

Lemma yields_print (text : str) (Q : unit -> Prop) : Q tt -> yields (print text) Q.
Proof. intros H w. split; [quiet_by 0%nat; reflexivity | exact H]. Qed.

Lemma yields_input (prompt : str) (Q : str -> Prop) :
  (forall line, Q line) -> yields (input prompt) Q.
Proof.
  intros H w. unfold input. destruct (stdin w) as [|line t] eqn:E; cbn [fst snd].
  - split; [quiet_by 0%nat; now rewrite E | now left].
  - split; [quiet_by 1%nat; now rewrite E | apply H].
Qed.

Lemma yields_for_each {A} (l : list A) (body : A -> M unit) :
  (forall x, yields (body x) (fun _ => True)) ->
  yields (for_each l body) (fun _ => True).
Proof.
  intros H. induction l as [|x t IH]; cbn [for_each].
  - now apply yields_ret.
  - apply yields_bind with (P := fun _ => True); [apply H | intros _ _; exact IH].
Qed.

Lemma yields_fold_m {A S} (l : list A) (body : S -> A -> M S) (Inv : S -> Prop) :
  (forall s x, In x l -> Inv s -> yields (body s x) Inv) ->
  forall s, Inv s -> yields (fold_m l body s) Inv.
Proof.
  induction l as [|x t IH]; intros H s Hs; cbn [fold_m].
  - now apply yields_ret.
  - apply yields_bind with (P := Inv); [apply H; [now left | exact Hs]|].
    intros s' Hs'. apply IH; [|exact Hs'].
    intros s0 x0 Hx. apply H. now right.
Qed.

(** Opening the URLs of a list adds them to the opened ones, in order. *)
Lemma for_each_open (urls : list str) (w : world) :
  for_each urls webbrowser_open w
  = (Ok tt, World (stdin w) (stdout w) (browser w ++ urls) (now w) (disk w)).
Proof.
  revert w. induction urls as [|u t IH]; intros w; cbn [for_each].
  - rewrite app_nil_r. now destruct w.
  - unfold bind, webbrowser_open at 1. rewrite IH. cbn. now rewrite <- app_assoc.
Qed.

End YieldsFacts.

Lemma NoDup_snoc {A} (l : list A) (x : A) : NoDup l -> ~ In x l -> NoDup (l ++ [x]).
Proof.
  induction l as [|a t IH]; intros Hn Hx; cbn [app].
  - constructor; [intros [] | constructor].
  - inversion Hn as [|? ? Ha Ht]; subst. constructor.
    + intros H. apply in_app_or in H as [H|[H|[]]]; [contradiction|].
      subst. apply Hx. now left.
    + apply IH; [exact Ht|]. intros H. apply Hx. now right.
Qed.

Lemma str_eqb_eq (a b : str) : Resolver.str_eqb a b = true <-> a = b.
Proof.
  unfold Resolver.str_eqb. destruct (list_eq_dec ascii_dec a b); split; congruence.
Qed.

Section OpenwebFacts.
Import Runtime Resolver.

Variable websites : list (str * str).
Variable similarity : str -> str -> Q.
Variable percent : Q -> str.

Lemma add_url_known (f : found) (url : str) :
  known websites f -> In url (map snd websites) -> known websites (add_url f url).
Proof.
  clear similarity percent.
  intros (Hn & Hs & Hv) Hu. unfold add_url.
  destruct (existsb (str_eqb url) (opened_urls f)) eqn:E; [repeat split; auto; apply Hs|].
  assert (Hout : ~ In url (urls_to_open f)).
  { intros H. apply Hs in H.
    assert (Hex : existsb (str_eqb url) (opened_urls f) = true).
    { apply existsb_exists. exists url. split; [exact H | now apply str_eqb_eq]. }
    congruence. }
  split; [|split]; cbn [urls_to_open opened_urls].
  - now apply NoDup_snoc.
  - intros u. rewrite in_app_iff. cbn [In]. rewrite Hs. tauto.
  - intros u H. apply in_app_or in H as [H|[<-|[]]]; auto.
Qed.

Lemma yields_getitem (key : str) (Q : str -> Prop) :
  In key (map fst websites) ->
  (forall url, In url (map snd websites) -> Q url) ->
  yields (getitem websites key) Q.
Proof.
  intros Hk HQ. unfold getitem.
  destruct (lookup_key websites key Hk) as (url & -> & Hu).
  now apply yields_ret, HQ.
Qed.

Lemma yields_int (x : str) (Q : Z -> Prop) : (forall z, Q z) -> yields (int x) Q.
Proof.
  intros H. unfold int. cbv zeta.
  destruct (4300 <? leading_digits x)%nat.
  - intros w. split; [apply quiet_refl|]. right. eexists. reflexivity.
  - destruct (int_from 0 x).
    + now apply yields_ret.
    + intros w. split; [apply quiet_refl|]. right. eexists. reflexivity.
Qed.

(** Adding the URL of a key of the dictionary keeps the invariant. *)
Lemma yields_add (f : found) (key : str) :
  known websites f -> In key (map fst websites) ->
  yields (url <- getitem websites key ;; ret (add_url f url)) (known websites).
Proof.
  clear similarity percent.
  intros Hf Hk.
  apply yields_bind with (P := fun url => In url (map snd websites)).
  - now apply yields_getitem.
  - intros url Hu. now apply yields_ret, add_url_known.
Qed.

Lemma resolve_word_known (f : found) (token : str * str) :
  known websites f ->
  yields (resolve_word websites similarity percent f token) (known websites).
Proof.
  intros Hf. destruct token as [original name]. unfold resolve_word.
  destruct (lookup websites name) as [url|] eqn:El.
  { apply yields_ret, add_url_known; [exact Hf|]. now apply lookup_value with name. }
  cbv zeta.
  set (cands := get_candidates websites similarity name (82 # 100) 5).
  assert (Hc : forall c, In c cands -> In (fst c) (map fst websites)).
  { intros [key score] H. now apply candidates_sound in H. }
  clearbody cands.
  destruct cands as [|[corrected score] [|c2 rest]].
  - now apply yields_ret.
  - apply yields_bind with (P := fun _ => True); [now apply yields_print|]. intros _ _.
    apply yields_bind with (P := fun _ => True); [now apply yields_input|]. intros ans _.
    destruct (str_eqb (lower (strip ans)) (lit "y")); [|now apply yields_ret].
    apply yields_add; [exact Hf|]. apply (Hc (corrected, score)). now left.
  - set (cands := (corrected, score) :: c2 :: rest) in *.
    apply yields_bind with (P := fun _ => True); [now apply yields_print|]. intros _ _.
    apply yields_bind with (P := fun _ => True).
    { apply yields_for_each. intros [i c]. now apply yields_print. }
    intros _ _.
    apply yields_bind with (P := fun _ => True); [now apply yields_input|]. intros choice _.
    destruct (str_eqb (lower (strip choice)) (lit "n") || str_eqb (lower (strip choice)) []);
      [now apply yields_ret|].
    destruct (str_eqb (lower (strip choice)) (lit "a")).
    { apply yields_fold_m; [|exact Hf]. intros s c Hin Hs. now apply yields_add, Hc. }
    destruct (isdigit (lower (strip choice))).
    + apply yields_bind with (P := fun _ => True); [now apply yields_int|]. intros idx _.
      destruct ((1 <=? idx) && (idx <=? Z.of_nat (List.length cands)))%Z.
      * destruct (nth_error cands (Z.to_nat (idx - 1))) as [[cand s]|] eqn:En;
          [|now apply yields_ret].
        apply yields_add; [exact Hf|]. apply (Hc (cand, s)).
        now apply nth_error_In in En.
      * apply yields_bind with (P := fun _ => True); [now apply yields_print|].
        intros _ _. now apply yields_ret.
    + apply yields_bind with (P := fun _ => True); [now apply yields_print|].
      intros _ _. now apply yields_ret.
Qed.

(** The loop of [openweb] over the words. *)
Lemma resolve_words_known (text : str) :
  yields (fold_m (combine (split_ws text) (map normalize_word (split_ws text)))
                 (resolve_word websites similarity percent) (Found [] []))
         (known websites).
Proof.
  apply yields_fold_m.
  - intros s x _ Hs. now apply resolve_word_known.
  - split; [constructor | split; [reflexivity | intros u []]].
Qed.

End OpenwebFacts.

Section OpenwebRun.
Import Runtime Resolver.

Variable websites : list (str * str).
Variable similarity : str -> str -> Q.
Variable percent : Q -> str.

Lemma openweb_finish (o : os) (text : str) (w : world) :
  openweb websites similarity percent o text w
  = match fold_m (combine (split_ws text) (map normalize_word (split_ws text)))
                 (resolve_word websites similarity percent) (Found [] []) w with
    | (Ok f, w1) => finish o text f w1
    | (Raise e, w1) => (Raise e, w1)
    end.
Proof. reflexivity. Qed.

(** The world in which [finish] writes the log line. *)
Lemma finish_log (o : os) (text : str) (f : found) (w : world) :
  finish o text f w
  = log_to_file o text (Some (truthy (urls_to_open f)))
      (World (stdin w) (stdout w ++ [summary (urls_to_open f)])
             (browser w ++ urls_to_open f) (now w) (disk w)).
Proof.
  unfold finish, summary. destruct (truthy (urls_to_open f)) eqn:E.
  - unfold bind at 1. rewrite for_each_open. reflexivity.
  - apply truthy_false in E. rewrite E, app_nil_r. reflexivity.
Qed.

End OpenwebRun.

(** C8.  [log_to_file] never raises: a failure of the append is caught and
    reported on the console, in one line that carries the message of the
    error; when the append succeeds nothing is printed.  So [openweb] ends the
    same way and has opened the same URLs, in the same order, on an operating
    system where the append fails as on one where it succeeds; and a run that
    returns has printed its summary and, after it, the report of the failed
    append if it failed. *)
Theorem log_failure_never_aborts_openweb :
  (forall (o : Runtime.os) (message : str) (status : option bool) (w : Runtime.world),
      let r := Resolver.log_to_file o message status w in
      fst r = Runtime.Ok tt /\
      Runtime.stdout (snd r)
      = Runtime.stdout w ++
        match snd (Runtime.os_append o (Runtime.disk w) Resolver.INPUT_FILE
                     (Resolver.log_line (Runtime.strftime (Runtime.now w)) message status))
        with
        | None => []
        | Some msg =>
            [lit "[LOG ERROR] There is a problem writing to input.txt: "
             ++ msg ++ ["010"%char]]
        end) /\
  (forall (websites : list (str * str)) (similarity : str -> str -> Q)
          (percent : Q -> str) (o1 o2 : Runtime.os) (text : str) (w : Runtime.world),
      let r1 := Resolver.openweb websites similarity percent o1 text w in
      let r2 := Resolver.openweb websites similarity percent o2 text w in
      fst r1 = fst r2 /\
      Runtime.browser (snd r1) = Runtime.browser (snd r2) /\
      Runtime.stdin (snd r1) = Runtime.stdin (snd r2)) /\
  (forall (websites : list (str * str)) (similarity : str -> str -> Q)
          (percent : Q -> str) (o : Runtime.os) (text : str) (w : Runtime.world),
      let r := Resolver.openweb websites similarity percent o text w in
      fst r = Runtime.Ok tt ->
      exists urls out,
        Runtime.browser (snd r) = Runtime.browser w ++ urls /\
        Runtime.stdout (snd r)
        = out ++ [Resolver.summary urls] ++
          match snd (Runtime.os_append o (Runtime.disk w) Resolver.INPUT_FILE
                       (Resolver.log_line (Runtime.strftime (Runtime.now w)) text
                          (Some (truthy urls))))
          with
          | None => []
          | Some msg =>
              [lit "[LOG ERROR] There is a problem writing to input.txt: "
               ++ msg ++ ["010"%char]]
          end).
Proof.
  split; [|split].
  - intros o message status w. cbv zeta.
    split; [apply log_to_file_returns|].
    pose proof (log_to_file_reports o message status w) as H. cbv zeta in H.
    destruct (snd (Runtime.os_append o (Runtime.disk w) Resolver.INPUT_FILE _));
      [exact H | now rewrite app_nil_r].
  - intros websites similarity percent o1 o2 text w. cbv zeta.
    change (Runtime.agree (Resolver.openweb websites similarity percent o1 text w)
                  (Resolver.openweb websites similarity percent o2 text w)).
    unfold Resolver.openweb. apply agree_bind. intros f w1.
    destruct (truthy (Resolver.urls_to_open f)).
    + apply agree_bind. intros _ w2. apply agree_bind. intros _ w3. apply agree_log.
    + apply agree_bind. intros _ w2. apply agree_log.
  - intros websites similarity percent o text w. cbv zeta. rewrite openweb_finish.
    destruct (resolve_words_known websites similarity percent text w)
      as [(Hb & Hd & Hn & _) _].
    destruct (Runtime.fold_m _ _ _ w) as [[f|e] w1]; cbn [fst snd] in *; [|discriminate].
    destruct w1 as [si so sb sn sd].
    cbn [Runtime.browser Runtime.disk Runtime.now] in Hb, Hd, Hn. subst sb sd sn.
    intros _. exists (Resolver.urls_to_open f), so.
    rewrite finish_log.
    cbn [Runtime.browser Runtime.disk Runtime.now Runtime.stdin Runtime.stdout].
    match goal with
    | |- context [Resolver.log_to_file o text ?s ?w2] =>
        destruct (log_to_file_returns o text s w2) as (_ & Hbr & _);
        pose proof (log_to_file_reports o text s w2) as Hrep
    end.
    cbv zeta in Hrep. cbn [Runtime.disk Runtime.now Runtime.stdout] in Hrep.
    rewrite Hbr. cbn [Runtime.browser]. split; [reflexivity|].
    destruct (snd (Runtime.os_append o (Runtime.disk w) Resolver.INPUT_FILE _));
      rewrite Hrep; [now rewrite <- app_assoc | now rewrite app_nil_r].
Qed.

Lemma log_failure_never_aborts_openweb_witness :
  let sites := [(lit "youtube", lit "https://youtube.com");
                (lit "google", lit "https://google.com")] in
  let w := Runtime.World [] [] [] (Runtime.DateTime 2024 3 7 9 5 0) (fun _ => []) in
  let r := Resolver.openweb sites (fun _ _ => 0%Q) (fun _ => [])
             (Runtime.failing_os "disk full") (lit "open Youtube.com and google") w in
  fst r = Runtime.Ok tt /\
  Runtime.stdout (snd r)
  = [lit "Opened 2 website(s)." ++ ["010"%char];
     lit "[LOG ERROR] There is a problem writing to input.txt: disk full" ++ ["010"%char]] /\
  exists urls out,
    Runtime.browser (snd r) = Runtime.browser w ++ urls /\
    Runtime.stdout (snd r)
    = out ++ [Resolver.summary urls] ++
      match snd (Runtime.os_append (Runtime.failing_os "disk full") (Runtime.disk w)
                   Resolver.INPUT_FILE
                   (Resolver.log_line (Runtime.strftime (Runtime.now w))
                      (lit "open Youtube.com and google") (Some (truthy urls))))
      with
      | None => []
      | Some msg =>
          [lit "[LOG ERROR] There is a problem writing to input.txt: "
           ++ msg ++ ["010"%char]]
      end.
Proof.
  cbv zeta. split; [vm_compute; reflexivity|]. split; [vm_compute; reflexivity|].
  apply (proj2 (proj2 log_failure_never_aborts_openweb)
           [(lit "youtube", lit "https://youtube.com");
            (lit "google", lit "https://google.com")]
           (fun _ _ => 0%Q) (fun _ => []) (Runtime.failing_os "disk full")
           (lit "open Youtube.com and google")
           (Runtime.World [] [] [] (Runtime.DateTime 2024 3 7 9 5 0) (fun _ => []))).
  vm_compute. reflexivity.
Defined.

(** A session in which the append fails, next to the same session in which
    it succeeds. *)
Lemma openweb_with_failing_log :
  let sites := [(lit "youtube", lit "https://youtube.com");
                (lit "google", lit "https://google.com")] in
  let w := Runtime.World [] [] [] (Runtime.DateTime 2024 3 7 9 5 0) (fun _ => []) in
  let run o := Resolver.openweb sites (fun _ _ => 0%Q) (fun _ => []) o
                 (lit "open Youtube.com and google") w in
  fst (run (Runtime.failing_os "disk full")) = Runtime.Ok tt /\
  Runtime.browser (snd (run (Runtime.failing_os "disk full")))
    = [lit "https://youtube.com"; lit "https://google.com"] /\
  Runtime.browser (snd (run Runtime.healthy_os))
    = [lit "https://youtube.com"; lit "https://google.com"] /\
  Runtime.disk (snd (run (Runtime.failing_os "disk full"))) Resolver.INPUT_FILE = [] /\
  Runtime.disk (snd (run Runtime.healthy_os)) Resolver.INPUT_FILE
    = lit "2024-03-07 09:05:00 | DEEP: open Youtube.com and google | True" ++ ["010"%char] /\
  last (Runtime.stdout (snd (run (Runtime.failing_os "disk full")))) []
    = lit "[LOG ERROR] There is a problem writing to input.txt: disk full" ++ ["010"%char].
Proof. cbv zeta. repeat split; vm_compute; reflexivity. Qed.

(** What a run of [openweb] opens: URLs of the dictionary, each of them
    once, after the URLs opened before.  A run that raises has opened nothing
    and written no file, and what it raises is the error of reading the
    answer: the end of the input, or the answer that [int] refuses. *)
Theorem openweb_opens_each_url_once (websites : list (str * str))
    (similarity : str -> str -> Q) (percent : Q -> str)
    (o : Runtime.os) (text : str) (w : Runtime.world) :
  let r := Resolver.openweb websites similarity percent o text w in
  exists urls,
    Runtime.browser (snd r) = Runtime.browser w ++ urls /\
    NoDup urls /\
    (forall u, In u urls -> In u (map snd websites)) /\
    match fst r with
    | Runtime.Ok _ => True
    | Runtime.Raise e =>
        urls = [] /\ Runtime.disk (snd r) = Runtime.disk w /\ Runtime.input_error e
    end.
Proof.
  cbv zeta. rewrite openweb_finish.
  destruct (resolve_words_known websites similarity percent text w) as [(Hb & Hd & _) Hr].
  destruct (Runtime.fold_m _ _ _ w) as [[f|e] w1]; cbn [fst snd] in *.
  - destruct Hr as (Hn & _ & Hv). exists (Resolver.urls_to_open f).
    rewrite finish_log.
    match goal with
    | |- context [Resolver.log_to_file o text ?s ?w2] =>
        destruct (log_to_file_returns o text s w2) as (Hok & Hbr & _)
    end.
    rewrite Hok, Hbr. cbn [Runtime.browser]. rewrite Hb.
    split; [reflexivity | split; [exact Hn | split; [exact Hv | exact I]]].
  - exists []. rewrite app_nil_r.
    split; [exact Hb | split; [constructor | split; [intros u [] |]]].
    split; [reflexivity | split; [exact Hd | exact Hr]].
Qed.

Lemma openweb_opens_each_url_once_witness :
  let websites := [(lit "ab", lit "u1"); (lit "cd", lit "u2"); (lit "ef", lit "u1")] in
  let w := Runtime.World [] [] [lit "u0"] (Runtime.DateTime 2024 3 7 9 5 0) (fun _ => []) in
  let r := Resolver.openweb websites (fun _ _ => 0%Q) (fun _ => [])
             Runtime.healthy_os (lit "open ab, ef and cd.com") w in
  Runtime.browser (snd r) = [lit "u0"; lit "u1"; lit "u2"] /\
  exists urls,
    Runtime.browser (snd r) = Runtime.browser w ++ urls /\
    NoDup urls /\
    (forall u, In u urls -> In u (map snd websites)) /\
    match fst r with
    | Runtime.Ok _ => True
    | Runtime.Raise e =>
        urls = [] /\ Runtime.disk (snd r) = Runtime.disk w /\ Runtime.input_error e
    end.
Proof.
  cbv zeta. split; [vm_compute; reflexivity|].
  exact (openweb_opens_each_url_once
           [(lit "ab", lit "u1"); (lit "cd", lit "u2"); (lit "ef", lit "u1")]
           (fun _ _ => 0%Q) (fun _ => []) Runtime.healthy_os (lit "open ab, ef and cd.com")
           (Runtime.World [] [] [lit "u0"] (Runtime.DateTime 2024 3 7 9 5 0) (fun _ => []))).
Defined.

(** On an operating system where nothing fails, a run of [openweb] that
    returns has printed its summary last and appended one line to the log
    file: the time, the text, and [True] exactly when it opened a URL. *)
Theorem openweb_logs_outcome (websites : list (str * str))
    (similarity : str -> str -> Q) (percent : Q -> str)
    (text : str) (w : Runtime.world) :
  let r := Resolver.openweb websites similarity percent Runtime.healthy_os text w in
  fst r = Runtime.Ok tt ->
  exists urls out,
    Runtime.browser (snd r) = Runtime.browser w ++ urls /\
    Runtime.stdout (snd r) = out ++ [Resolver.summary urls] /\
    Runtime.disk (snd r)
    = Runtime.write_file (Runtime.disk w) Resolver.INPUT_FILE
        (Runtime.disk w Resolver.INPUT_FILE
         ++ Resolver.log_line (Runtime.strftime (Runtime.now w)) text
              (Some (truthy urls))).
Proof.
  cbv zeta. rewrite openweb_finish.
  destruct (resolve_words_known websites similarity percent text w) as [(Hb & Hd & Hn & _) _].
  destruct (Runtime.fold_m _ _ _ w) as [[f|e] w1]; cbn [fst snd] in *; [|discriminate].
  intros _. exists (Resolver.urls_to_open f), (Runtime.stdout w1).
  rewrite finish_log. cbn. rewrite Hb, Hd, Hn. auto.
Qed.

Lemma openweb_logs_outcome_witness :
  let websites := [(lit "ab", lit "u1"); (lit "cd", lit "u2")] in
  let w := Runtime.World [] [] [] (Runtime.DateTime 2024 3 7 9 5 0) (fun _ => []) in
  let r := Resolver.openweb websites (fun _ _ => 0%Q) (fun _ => [])
             Runtime.healthy_os (lit "open cd.com") w in
  fst r = Runtime.Ok tt /\
  Runtime.browser (snd r) = [lit "u2"] /\
  Runtime.disk (snd r) Resolver.INPUT_FILE
  = lit "2024-03-07 09:05:00 | DEEP: open cd.com | True" ++ ["010"%char] /\
  exists urls out,
    Runtime.browser (snd r) = Runtime.browser w ++ urls /\
    Runtime.stdout (snd r) = out ++ [Resolver.summary urls] /\
    Runtime.disk (snd r)
    = Runtime.write_file (Runtime.disk w) Resolver.INPUT_FILE
        (Runtime.disk w Resolver.INPUT_FILE
         ++ Resolver.log_line (Runtime.strftime (Runtime.now w)) (lit "open cd.com")
              (Some (truthy urls))).
Proof.
  cbv zeta. split; [vm_compute; reflexivity|].
  split; [vm_compute; reflexivity|]. split; [vm_compute; reflexivity|].
  apply (openweb_logs_outcome [(lit "ab", lit "u1"); (lit "cd", lit "u2")]
           (fun _ _ => 0%Q) (fun _ => []) (lit "open cd.com")
           (Runtime.World [] [] [] (Runtime.DateTime 2024 3 7 9 5 0) (fun _ => []))).
  vm_compute. reflexivity.
Defined.

(** ** WebsiteResolver: runs that ask nothing *)

Section DirectFacts.
Import Runtime Resolver.

Variable websites : list (str * str).
Variable similarity : str -> str -> Q.
Variable percent : Q -> str.

Lemma resolve_direct (f : found) (original name : str) (w : world) :
  direct websites similarity name = true ->
  resolve_word websites similarity percent f (original, name) w
  = (Ok (match lookup websites name with
         | Some url => add_url f url
         | None => f
         end), w).
Proof.
  unfold direct, resolve_word. destruct (lookup websites name); [reflexivity|].
  cbv zeta. destruct (get_candidates websites similarity name (82 # 100) 5) as [|c t];
    [reflexivity | discriminate].
Qed.

Lemma fold_direct (words : list str) (f : found) (w : world) :
  forallb (fun word => direct websites similarity (normalize_word word)) words = true ->
  fold_m (combine words (map normalize_word words))
         (resolve_word websites similarity percent) f w
  = (Ok (fold_left (take websites) words f), w).
Proof.
  revert f. induction words as [|word t IH]; intros f H; [reflexivity|].
  cbn [forallb] in H. apply andb_prop in H as [Hw Ht].
  cbn [map combine fold_m fold_left]. unfold bind.
  rewrite (resolve_direct f word _ w Hw). exact (IH _ Ht).
Qed.

Lemma add_url_In (f : found) (url u : str) :
  known websites f ->
  In u (urls_to_open (add_url f url)) <-> In u (urls_to_open f) \/ u = url.
Proof.
  clear similarity percent.
  intros (_ & Hs & _). unfold add_url.
  destruct (existsb (str_eqb url) (opened_urls f)) eqn:E.
  - split; [now left|]. intros [H | ->]; [exact H|].
    apply existsb_exists in E as (x & Hx & Ex). apply str_eqb_eq in Ex. subst x.
    now apply Hs.
  - cbn [urls_to_open]. rewrite in_app_iff. cbn [In]. split.
    + intros [H | [H | []]]; [now left | right; now symmetry].
    + intros [H | ->]; [now left | right; now left].
Qed.

Lemma take_known (f : found) (word : str) :
  known websites f -> known websites (take websites f word).
Proof.
  clear similarity percent.
  intros Hf. unfold take. destruct (lookup websites (normalize_word word)) eqn:E;
    [|exact Hf].
  apply add_url_known; [exact Hf|]. now apply lookup_value with (normalize_word word).
Qed.

Lemma fold_take_In (words : list str) (f : found) (u : str) :
  known websites f ->
  In u (urls_to_open (fold_left (take websites) words f))
  <-> In u (urls_to_open f) \/
      exists word, In word words /\ lookup websites (normalize_word word) = Some u.
Proof.
  clear similarity percent.
  revert f. induction words as [|word t IH]; intros f Hf; cbn [fold_left].
  - split; [now left|]. intros [H| (word & [] & _)]. exact H.
  - rewrite (IH _ (take_known f word Hf)). unfold take at 1.
    destruct (lookup websites (normalize_word word)) as [url|] eqn:E.
    + rewrite (add_url_In f url u Hf). split.
      * intros [[H | ->]| (x & Hx & Ex)]; [now left | right | right].
        -- exists word. split; [now left | exact E].
        -- exists x. split; [now right | exact Ex].
      * intros [H| (x & [<-|Hx] & Ex)]; [left; now left | left; right | right].
        -- congruence.
        -- now exists x.
    + split.
      * intros [H| (x & Hx & Ex)]; [now left | right]. exists x. split; [now right | exact Ex].
      * intros [H| (x & [<-|Hx] & Ex)]; [now left | congruence | right]. now exists x.
Qed.

End DirectFacts.

(** When every word of the text is, once normalised, a key of the dictionary
    or a name without candidate, [openweb] asks nothing: it reads no input,
    returns, and has opened exactly the URLs of the words that are keys. *)
Theorem openweb_asks_nothing (websites : list (str * str))
    (similarity : str -> str -> Q) (percent : Q -> str)
    (o : Runtime.os) (text : str) (w : Runtime.world) :
  forallb (fun word => Resolver.direct websites similarity (Resolver.normalize_word word))
          (split_ws text) = true ->
  let r := Resolver.openweb websites similarity percent o text w in
  fst r = Runtime.Ok tt /\
  Runtime.stdin (snd r) = Runtime.stdin w /\
  exists urls,
    Runtime.browser (snd r) = Runtime.browser w ++ urls /\
    forall u,
      In u urls <->
      exists word,
        In word (split_ws text) /\
        Resolver.lookup websites (Resolver.normalize_word word) = Some u.
Proof.
  intros H. cbv zeta. rewrite openweb_finish.
  rewrite (fold_direct websites similarity percent _ _ w H).
  rewrite finish_log.
  match goal with
  | |- context [Resolver.log_to_file o text ?s ?w2] =>
      destruct (log_to_file_returns o text s w2) as (Hok & Hbr & Hin)
  end.
  rewrite Hok, Hbr, Hin. cbn [Runtime.browser Runtime.stdin].
  split; [reflexivity | split; [reflexivity|]].
  eexists. split; [reflexivity|]. intros u.
  rewrite (fold_take_In websites (split_ws text) (Resolver.Found [] []) u).
  - cbn [Resolver.urls_to_open In]. tauto.
  - split; [constructor | split; [reflexivity | intros x []]].
Qed.

Lemma openweb_asks_nothing_witness :
  let websites := [(lit "google", lit "u1"); (lit "youtube", lit "u2")] in
  let w := Runtime.World [lit "y"] [] [] (Runtime.DateTime 2024 3 7 9 5 0) (fun _ => []) in
  let r := Resolver.openweb websites (fun _ _ => 0%Q) (fun _ => [])
             Runtime.healthy_os (lit "open WWW.YouTube.com, and https://google.in") w in
  forallb (fun word => Resolver.direct websites (fun _ _ => 0%Q) (Resolver.normalize_word word))
          (split_ws (lit "open WWW.YouTube.com, and https://google.in")) = true /\
  Runtime.browser (snd r) = [lit "u2"; lit "u1"] /\
  (fst r = Runtime.Ok tt /\
   Runtime.stdin (snd r) = Runtime.stdin w /\
   exists urls,
     Runtime.browser (snd r) = Runtime.browser w ++ urls /\
     forall u,
       In u urls <->
       exists word,
         In word (split_ws (lit "open WWW.YouTube.com, and https://google.in")) /\
         Resolver.lookup websites (Resolver.normalize_word word) = Some u).
Proof.
  cbv zeta. split; [vm_compute; reflexivity|]. split; [vm_compute; reflexivity|].
  apply (openweb_asks_nothing [(lit "google", lit "u1"); (lit "youtube", lit "u2")]
           (fun _ _ => 0%Q) (fun _ => []) Runtime.healthy_os
           (lit "open WWW.YouTube.com, and https://google.in")
           (Runtime.World [lit "y"] [] [] (Runtime.DateTime 2024 3 7 9 5 0) (fun _ => []))).
  vm_compute. reflexivity.
Defined.

(** ** WebsiteResolver: an answer that [int] refuses *)

Section RefusedChoice.
Import Runtime Resolver.

Variable websites : list (str * str).
Variable similarity : str -> str -> Q.
Variable percent : Q -> str.

(** A loop of prints returns and changes the output only. *)
Lemma for_each_prints {A} (l : list A) (body : A -> M unit) :
  (forall x w, exists t,
      body x w = (Ok tt, World (stdin w) (stdout w ++ t) (browser w) (now w) (disk w))) ->
  forall w, exists out,
    for_each l body w
    = (Ok tt, World (stdin w) (stdout w ++ out) (browser w) (now w) (disk w)).
Proof.
  clear websites similarity percent.
  intros H. induction l as [|x t IH]; intros w; cbn [for_each].
  - exists []. rewrite app_nil_r. now destruct w.
  - unfold bind. destruct (H x w) as (o1 & ->).
    destruct (IH (World (stdin w) (stdout w ++ o1) (browser w) (now w) (disk w)))
      as (o2 & ->).
    exists (o1 ++ o2). cbn. now rewrite app_assoc.
Qed.

(** A string of digits is none of the other answers. *)
Lemma isdigit_other (x : str) :
  isdigit x = true ->
  str_eqb x (lit "n") = false /\ str_eqb x [] = false /\ str_eqb x (lit "a") = false.
Proof.
  clear websites similarity percent.
  intros H.
  split; [|split]; match goal with |- str_eqb ?a ?b = false =>
    destruct (str_eqb a b) eqn:E; [|reflexivity];
    apply str_eqb_eq in E; subst x; discriminate H end.
Qed.

Lemma resolve_word_refused (f : found) (original name line : str) (rest : list str)
    (w : world) :
  lookup websites name = None ->
  (2 <= List.length (get_candidates websites similarity name (82 # 100) 5))%nat ->
  stdin w = line :: rest ->
  isdigit (lower (strip line)) = true ->
  int_from 0 (lower (strip line)) = None \/
  (4300 < leading_digits (lower (strip line)))%nat ->
  exists w',
    resolve_word websites similarity percent f (original, name) w
    = (Raise (ValueError (int_refusal (lower (strip line)))), w') /\
    browser w' = browser w /\ disk w' = disk w.
Proof.
  intros Hl Hn Hin Hd Hi. unfold resolve_word. rewrite Hl. cbv zeta.
  destruct (get_candidates websites similarity name (82 # 100) 5)
    as [|[k1 s1] [|c2 cs]]; cbn [List.length] in Hn; try lia.
  destruct (isdigit_other _ Hd) as (E1 & E2 & E3).
  unfold bind at 1. unfold print at 1. cbn beta iota.
  unfold bind at 1.
  match goal with
  | |- context [for_each ?l ?body ?w1] =>
      destruct (for_each_prints l body) with (w := w1) as (out & ->)
  end.
  { intros [i c] w0. eexists. reflexivity. }
  unfold bind at 1. unfold input. cbn [stdin stdout browser now disk]. rewrite Hin.
  rewrite E1, E2, E3, Hd. cbn [orb].
  unfold bind, int, int_refusal. cbv zeta.
  destruct (4300 <? leading_digits (lower (strip line)))%nat eqn:El.
  - unfold raise. eexists. split; [reflexivity | split; reflexivity].
  - destruct Hi as [Hi|Hi]; [|apply Nat.ltb_ge in El; lia].
    rewrite Hi. unfold raise. eexists. split; [reflexivity | split; reflexivity].
Qed.

End RefusedChoice.

(** An answer made of digits can be refused by [int]: a superscript digit
    passes [isdigit] and is no decimal digit, and more than 4300 digits are
    over the limit of the conversion.  When the word has several candidates
    and such an answer is read, [openweb] raises the [ValueError] of [int]:
    it has then opened nothing and written no log line. *)
Theorem openweb_digit_choice_refused (websites : list (str * str))
    (similarity : str -> str -> Q) (percent : Q -> str)
    (o : Runtime.os) (text word line : str) (rest : list str) (w : Runtime.world) :
  split_ws text = [word] ->
  Resolver.lookup websites (Resolver.normalize_word word) = None ->
  (2 <= List.length (Resolver.get_candidates websites similarity
                       (Resolver.normalize_word word) (82 # 100) 5))%nat ->
  Runtime.stdin w = line :: rest ->
  isdigit (lower (strip line)) = true ->
  Resolver.int_from 0 (lower (strip line)) = None \/
  (4300 < Resolver.leading_digits (lower (strip line)))%nat ->
  let r := Resolver.openweb websites similarity percent o text w in
  let choice := lower (strip line) in
  let digits := Resolver.leading_digits choice in
  fst r = Runtime.Raise
            (Runtime.ValueError
               (if (4300 <? digits)%nat
                then lit "Exceeds the limit (4300 digits) for integer string conversion: value has "
                     ++ Runtime.str_of_nat digits
                     ++ lit " digits; use sys.set_int_max_str_digits() to increase the limit"
                else lit "invalid literal for int() with base 10: "
                     ++ firstn 200 (lit "'" ++ choice ++ lit "'"))) /\
  Runtime.browser (snd r) = Runtime.browser w /\
  Runtime.disk (snd r) = Runtime.disk w.
Proof.
  intros Hs Hl Hn Hin Hd Hi. cbv zeta. rewrite openweb_finish, Hs.
  cbn [map combine Runtime.fold_m]. unfold Runtime.bind.
  destruct (resolve_word_refused websites similarity percent (Resolver.Found [] [])
              word (Resolver.normalize_word word) line rest w Hl Hn Hin Hd Hi)
    as (w' & -> & Hb & Hk).
  cbn [fst snd]. split; [reflexivity | split; [exact Hb | exact Hk]].
Qed.

Lemma openweb_digit_choice_refused_witness :
  let websites := [(lit "gmail", lit "u1"); (lit "gmaps", lit "u2")] in
  let w := Runtime.World [[" "; "178"]%char] [] [] (Runtime.DateTime 2024 3 7 9 5 0)
             (fun _ => []) in
  let r := Resolver.openweb websites (fun _ _ => 1%Q) (fun _ => [])
             Runtime.healthy_os (lit "gmal") w in
  isdigit ["178"%char] = true /\
  fst r = Runtime.Raise
            (Runtime.ValueError (lit "invalid literal for int() with base 10: '"
                                 ++ ["178"%char] ++ lit "'")) /\
  Runtime.browser (snd r) = [] /\
  Runtime.disk (snd r) Resolver.INPUT_FILE = [].
Proof.
  cbv zeta. split; [reflexivity|].
  destruct (openweb_digit_choice_refused
              [(lit "gmail", lit "u1"); (lit "gmaps", lit "u2")]
              (fun _ _ => 1%Q) (fun _ => []) Runtime.healthy_os
              (lit "gmal") (lit "gmal") [" "; "178"]%char []
              (Runtime.World [[" "; "178"]%char] [] [] (Runtime.DateTime 2024 3 7 9 5 0)
                 (fun _ => [])))
    as (H1 & H2 & H3); try reflexivity; try (vm_compute; lia);
    try (left; reflexivity).
  split; [exact H1 | split; [exact H2 | now rewrite H3]].
Defined.

(** ** WebsiteResolver: names [normalize_word] leaves alone *)

Section PlainFacts.

Lemma strip_by_none (p : ascii -> bool) (x : str) :
  (forall c, In c x -> p c = false) -> strip_by p x = x.
Proof.
  intros H. unfold strip_by, lstrip_by.
  assert (Hd : dropwhile p x = x).
  { destruct x as [|c t]; [reflexivity|]. cbn [dropwhile].
    now rewrite (H c (or_introl eq_refl)). }
  rewrite Hd. clear Hd.
  induction x as [|c t IH]; [reflexivity|].
  rewrite rstrip_by_cons, IH by (intros d Hd; apply H; now right).
  destruct t; [|reflexivity]. now rewrite (H c (or_introl eq_refl)).
Qed.

Lemma startswith_In (x p : str) (c : ascii) :
  startswith x p = true -> In c p -> In c x.
Proof.
  revert x. induction p as [|a p' IH]; intros x H Hc; [destruct Hc|].
  destruct x as [|b x']; [discriminate|]. cbn [startswith] in H.
  apply andb_prop in H as [Hab Hr]. apply ascii_eqb_eq in Hab. subst b.
  destruct Hc as [<-|Hc]; [now left | right; now apply IH].
Qed.

Lemma startswith_absent (x p : str) (c : ascii) :
  In c p -> ~ In c x -> startswith x p = false.
Proof.
  intros Hp Hx. destruct (startswith x p) eqn:E; [|reflexivity].
  exfalso. apply Hx. now apply startswith_In with p.
Qed.

Lemma endswith_absent (x s : str) (c : ascii) :
  In c s -> ~ In c x -> endswith x s = false.
Proof.
  intros Hs Hx. unfold endswith. apply startswith_absent with c.
  - now apply in_rev in Hs.
  - intros H. apply Hx. now apply in_rev.
Qed.

Lemma word_not_punct (c : ascii) :
  isword c = true ->
  isspace c = false /\ mem c (lit ",.!?/:\|") = false /\ c <> "."%char /\ c <> ":"%char.
Proof.
  destruct c as [[] [] [] [] [] [] [] []]; vm_compute; intros H;
    first [discriminate H | repeat split; discriminate].
Qed.

Lemma plain_In (x : str) (c : ascii) :
  plain x = true -> In c x -> isword c = true /\ lower_char c = c.
Proof.
  intros H Hc. unfold plain in H.
  pose proof (proj1 (forallb_forall _ _) H c Hc) as Hw.
  apply andb_prop in Hw as [Hw Hl]. now apply ascii_eqb_eq in Hl.
Qed.

Lemma plain_lower (x : str) : plain x = true -> lower x = x.
Proof.
  intros H. unfold lower. rewrite <- (map_id x) at 2.
  apply map_ext_in. intros c Hc. now apply plain_In with x.
Qed.

End PlainFacts.

(** [normalize_word] returns a word of lowercase letters, digits and
    underscores as it is. *)
Theorem normalize_word_plain (word : str) :
  plain word = true -> Resolver.normalize_word word = word.
Proof.
  intros H.
  assert (Hsp : forall c, In c word -> isspace c = false).
  { intros c Hc. apply (plain_In _ _ H) in Hc as [Hw _]. now apply word_not_punct. }
  assert (Hpu : forall c, In c word -> mem c (lit ",.!?/:\|") = false).
  { intros c Hc. apply (plain_In _ _ H) in Hc as [Hw _]. now apply word_not_punct. }
  assert (Hdot : ~ In "."%char word).
  { intros Hc. apply (plain_In _ _ H) in Hc as [Hw _]. discriminate Hw. }
  assert (Hcol : ~ In ":"%char word).
  { intros Hc. apply (plain_In _ _ H) in Hc as [Hw _]. discriminate Hw. }
  unfold Resolver.normalize_word, Resolver.before_suffixes. cbv zeta.
  rewrite (plain_lower _ H). unfold strip, strip_chars.
  rewrite (strip_by_none isspace word Hsp).
  rewrite (strip_by_none _ word Hpu).
  cbn [fold_left Resolver.prefixes Resolver.suffixes]. unfold Resolver.cut_prefix.
  rewrite (startswith_absent word (lit "http://") ":") by (cbn; tauto).
  rewrite (startswith_absent word (lit "https://") ":") by (cbn; tauto).
  rewrite (startswith_absent word (lit "www.") ".") by (cbn; tauto).
  unfold Resolver.cut_suffix.
  rewrite (endswith_absent word (lit ".com") ".") by (cbn; tauto).
  rewrite (endswith_absent word (lit ".in") ".") by (cbn; tauto).
  rewrite (endswith_absent word (lit ".org") ".") by (cbn; tauto).
  rewrite (endswith_absent word (lit ".net") ".") by (cbn; tauto).
  reflexivity.
Qed.

Lemma normalize_word_plain_witness :
  plain (lit "stack_overflow2") = true /\
  Resolver.normalize_word (lit "stack_overflow2") = lit "stack_overflow2".
Proof.
  split; [reflexivity|].
  apply (normalize_word_plain (lit "stack_overflow2")). reflexivity.
Defined.

(** ** WebsiteResolver: the suffix loop of [normalize_word] *)

Section SuffixLoop.
Import Resolver.

(** One pass of the suffix loop removes the suffix it tests exactly when the
    word ends with it. *)
Lemma cut_suffix_removed (w suffix : str) :
  w = cut_suffix w suffix ++ (if endswith w suffix then suffix else []).
Proof.
  unfold cut_suffix. destruct (endswith w suffix) eqn:E.
  - now apply endswith_app.
  - now rewrite app_nil_r.
Qed.

Lemma strip_by_ends (p : ascii -> bool) (c d : ascii) (mid : str) :
  p c = false -> p d = false ->
  strip_by p (c :: mid ++ [d]) = c :: mid ++ [d].
Proof.
  intros Hc Hd. unfold strip_by, lstrip_by. cbn [dropwhile]. rewrite Hc.
  unfold rstrip_by. change (c :: mid ++ [d]) with ((c :: mid) ++ [d]).
  rewrite rev_app_distr. cbn [rev app dropwhile]. rewrite Hd.
  change (d :: (rev mid ++ [c])) with (rev [d] ++ rev (c :: mid)).
  now rewrite <- rev_app_distr, rev_involutive.
Qed.

Lemma startswith_snoc_absent (u v p : str) (d : ascii) :
  ~ In d v -> startswith (u ++ v) (p ++ [d]) = startswith u (p ++ [d]).
Proof.
  intros Hd. revert p. induction u as [|c u' IH]; intros p.
  - cbn [app]. rewrite (startswith_absent v (p ++ [d]) d);
      [now destruct p | apply in_or_app; right; now left | exact Hd].
  - destruct p as [|b p']; cbn [app startswith].
    + now destruct (u' ++ v), u'.
    + now rewrite IH.
Qed.

(** A suffix that opens with a dot is looked for in what follows a name
    without a dot. *)
Lemma endswith_dot (a t s : str) :
  ~ In "."%char a ->
  endswith (a ++ t) ("."%char :: s) = endswith t ("."%char :: s).
Proof.
  intros Ha. unfold endswith. rewrite rev_app_distr. cbn [rev].
  apply startswith_snoc_absent. intros H. apply Ha. now apply in_rev.
Qed.

Lemma cut_suffix_dot (a t s : str) :
  ~ In "."%char a ->
  cut_suffix (a ++ t) ("."%char :: s) = a ++ cut_suffix t ("."%char :: s).
Proof.
  intros Ha. unfold cut_suffix. rewrite (endswith_dot a t s Ha).
  destruct (endswith t ("."%char :: s)) eqn:E; [|reflexivity].
  apply endswith_app in E.
  assert (Hlen : (List.length ("."%char :: s) <= List.length t)%nat).
  { rewrite E at 1. rewrite length_app. lia. }
  rewrite length_app, firstn_app, firstn_all2 by lia.
  f_equal. f_equal. lia.
Qed.

Lemma suffix_loop_dot (a t : str) :
  ~ In "."%char a ->
  fold_left cut_suffix suffixes (a ++ t) = a ++ fold_left cut_suffix suffixes t.
Proof.
  intros Ha. unfold suffixes. cbn [fold_left].
  change (lit ".com") with ("."%char :: lit "com").
  change (lit ".in") with ("."%char :: lit "in").
  change (lit ".org") with ("."%char :: lit "org").
  change (lit ".net") with ("."%char :: lit "net").
  now rewrite !(cut_suffix_dot a _ _ Ha).
Qed.

Lemma plain_no_dot (a : str) : plain a = true -> ~ In "."%char a.
Proof.
  intros H Hc. apply (plain_In _ _ H) in Hc as [Hw _]. discriminate Hw.
Qed.

(** A name without a dot that is not [www], followed by a dot, does not
    start with [www.]. *)
Lemma not_www (a t : str) :
  plain a = true -> a <> [] -> a <> lit "www" ->
  startswith (a ++ "."%char :: t) (lit "www.") = false.
Proof.
  intros Hp Hne Hw. destruct (startswith _ _) eqn:E; [|reflexivity]. exfalso.
  apply startswith_app in E. cbn [lit list_ascii_of_string app] in E.
  destruct a as [|c1 [|c2 [|c3 [|c4 a']]]]; cbn [app] in E.
  - now apply Hne.
  - discriminate E.
  - discriminate E.
  - apply Hw. injection E; intros; subst. reflexivity.
  - injection E; intros; subst.
    apply (plain_no_dot _ Hp). right. right. right. now left.
Qed.

(** The steps before the suffix loop leave alone a plain name followed by
    text that opens with a dot, is in lower case, has no colon, and ends with
    a character that [strip] keeps. *)
Lemma before_suffixes_stacked (a t : str) :
  plain a = true -> a <> [] -> a <> lit "www" ->
  t = "."%char :: removelast (tl t) ++ [last t " "%char] ->
  lower t = t ->
  mem ":"%char t = false ->
  isspace (last t " "%char) = false ->
  mem (last t " "%char) (lit ",.!?/:\|") = false ->
  before_suffixes (a ++ t) = a ++ t.
Proof.
  intros Hp Hne Hw Ht Hl Hc Hs Hm.
  unfold before_suffixes. cbv zeta.
  unfold lower. rewrite map_app. fold (lower a). fold (lower t).
  rewrite (plain_lower _ Hp), Hl.
  destruct a as [|c a'] eqn:Ea; [now contradiction Hne|]. rewrite <- Ea in *.
  assert (Hcw : isword c = true).
  { apply (plain_In a c Hp). rewrite Ea. now left. }
  destruct (word_not_punct c Hcw) as (Hc1 & Hc2 & _ & _).
  assert (Hx : a ++ t = c :: (a' ++ "."%char :: removelast (tl t)) ++ [last t " "%char]).
  { rewrite Ea. cbn [app]. f_equal. rewrite <- app_assoc. cbn [app]. now rewrite <- Ht. }
  unfold strip, strip_chars. rewrite Hx.
  rewrite (strip_by_ends isspace _ _ _ Hc1 Hs).
  rewrite (strip_by_ends _ _ _ _ Hc2 Hm).
  rewrite <- Hx.
  assert (Hcol : ~ In ":"%char (a ++ t)).
  { intros H. apply in_app_or in H as [H|H].
    - apply (plain_In _ _ Hp) in H as [H _]. discriminate H.
    - unfold mem in Hc.
      assert (Hex : existsb (ascii_eqb ":") t = true).
      { apply existsb_exists. exists ":"%char. split; [exact H | reflexivity]. }
      congruence. }
  cbn [fold_left prefixes]. unfold cut_prefix.
  rewrite (startswith_absent (a ++ t) (lit "http://") ":") by (cbn; tauto).
  rewrite (startswith_absent (a ++ t) (lit "https://") ":") by (cbn; tauto).
  rewrite Ht at 1. now rewrite (not_www a _ Hp Hne Hw).
Qed.

End SuffixLoop.

(** C2, amended.  The suffix loop tests the suffixes in the order [.com],
    [.in], [.org], [.net] and removes each exactly when the word, as the earlier
    tests left it, ends with it: what it takes off the end of the word is a
    [.net] or nothing, then an [.org] or nothing, then an [.in] or nothing,
    then a [.com] or nothing.  So a plain name followed by two stacked
    suffixes of the list keeps the inner one when the inner one does not come
    later in the list than the outer one ([a.com.in] and [a.com.com] give
    [a.com]), and loses both when it comes later ([a.net.com] gives [a]). *)
Theorem normalize_word_suffixes :
  (forall word : str,
      exists w1 w2 w3 : str,
        let w0 := Resolver.before_suffixes word in
        let w4 := Resolver.normalize_word word in
        w0 = w1 ++ (if endswith w0 (lit ".com") then lit ".com" else []) /\
        w1 = w2 ++ (if endswith w1 (lit ".in") then lit ".in" else []) /\
        w2 = w3 ++ (if endswith w2 (lit ".org") then lit ".org" else []) /\
        w3 = w4 ++ (if endswith w3 (lit ".net") then lit ".net" else [])) /\
  (forall (name : str) (i o : nat),
      plain name = true -> name <> [] -> name <> lit "www" ->
      (i < 4)%nat -> (o < 4)%nat ->
      let inner := nth i Resolver.suffixes [] in
      let outer := nth o Resolver.suffixes [] in
      Resolver.normalize_word (name ++ inner ++ outer)
      = if (i <=? o)%nat then name ++ inner else name).
Proof.
  split.
  - intros word.
    exists (Resolver.cut_suffix (Resolver.before_suffixes word) (lit ".com")).
    exists (Resolver.cut_suffix
              (Resolver.cut_suffix (Resolver.before_suffixes word) (lit ".com")) (lit ".in")).
    exists (Resolver.cut_suffix
              (Resolver.cut_suffix
                 (Resolver.cut_suffix (Resolver.before_suffixes word) (lit ".com"))
                 (lit ".in")) (lit ".org")).
    cbv zeta. unfold Resolver.normalize_word, Resolver.suffixes. cbn [fold_left].
    split; [apply cut_suffix_removed|].
    split; [apply cut_suffix_removed|].
    split; apply cut_suffix_removed.
  - intros name i o Hp Hne Hw Hi Ho. cbv zeta.
    pose proof (plain_no_dot _ Hp) as Hdot.
    destruct i as [|[|[|[|i]]]]; try lia;
      destruct o as [|[|[|[|o]]]]; try lia;
      cbn [nth Resolver.suffixes Nat.leb];
      unfold Resolver.normalize_word;
      rewrite (before_suffixes_stacked name _ Hp Hne Hw)
        by reflexivity;
      rewrite (suffix_loop_dot name _ Hdot);
      match goal with
      | |- context [fold_left Resolver.cut_suffix Resolver.suffixes ?t] =>
          let v := eval vm_compute in (fold_left Resolver.cut_suffix Resolver.suffixes t) in
          change (fold_left Resolver.cut_suffix Resolver.suffixes t) with v
      end;
      first [reflexivity | apply app_nil_r].
Qed.

Lemma normalize_word_suffixes_witness :
  plain (lit "a") = true /\
  Resolver.normalize_word (lit "a.com.com") = lit "a.com" /\
  Resolver.normalize_word (lit "a" ++ nth 0 Resolver.suffixes [] ++ nth 0 Resolver.suffixes [])
  = (if (0 <=? 0)%nat then lit "a" ++ nth 0 Resolver.suffixes [] else lit "a").
Proof.
  split; [reflexivity|]. split; [reflexivity|].
  apply (proj2 normalize_word_suffixes (lit "a") 0%nat 0%nat);
    first [reflexivity | discriminate | lia].
Defined.

(** ** The logger of [SpeechToText_Python.py] never raises *)

(** [append_to_input_file] returns normally whatever the operating system
    does, and touches neither the browser nor the pending input.  When the
    directory cannot be created it writes nothing and prints the error, the
    colour code [Fore.RED] first; when the append fails it prints the error in
    the same way; otherwise it prints nothing and the disk is what the append
    of the line left. *)
Theorem append_to_input_file_never_raises (o : Runtime.os) (text : str) (w : Runtime.world) :
  let r := SpeechLog.append_to_input_file o text w in
  let line := SpeechLog.input_file_line (Runtime.strftime (Runtime.now w)) text in
  let report := fun msg =>
    SpeechLog.Fore_RED ++ lit "File write error: " ++ msg ++ ["010"%char] in
  fst r = Runtime.Ok tt /\
  Runtime.browser (snd r) = Runtime.browser w /\
  Runtime.stdin (snd r) = Runtime.stdin w /\
  match Runtime.os_mkdir o SpeechLog.OUTPUT_FILE with
  | Some msg =>
      Runtime.disk (snd r) = Runtime.disk w /\
      Runtime.stdout (snd r) = Runtime.stdout w ++ [report msg]
  | None =>
      Runtime.disk (snd r)
      = fst (Runtime.os_append o (Runtime.disk w) SpeechLog.OUTPUT_FILE line) /\
      Runtime.stdout (snd r)
      = match snd (Runtime.os_append o (Runtime.disk w) SpeechLog.OUTPUT_FILE line) with
        | Some msg => Runtime.stdout w ++ [report msg]
        | None => Runtime.stdout w
        end
  end.
Proof.
  cbv zeta.
  unfold SpeechLog.append_to_input_file, Runtime.try_except, Runtime.bind,
    Runtime.mkdir_parents, Runtime.timestamp_now, Runtime.append_file.
  destruct (Runtime.os_mkdir o SpeechLog.OUTPUT_FILE) as [msg|]; cbn.
  - repeat split.
  - destruct (Runtime.os_append o (Runtime.disk w) SpeechLog.OUTPUT_FILE _)
      as [fs [msg|]]; cbn; repeat split.
Qed.

(** ** WebsiteResolver: the loop of [main] *)

Lemma In_skipn_list {A} (k : nat) (l : list A) (x : A) : In x (skipn k l) -> In x l.
Proof.
  intros H. rewrite <- (firstn_skipn k l). apply in_or_app. now right.
Qed.

Section MainFacts.
Import Runtime Resolver.

Variable websites : list (str * str).
Variable similarity : str -> str -> Q.
Variable percent : Q -> str.

(** One run of [openweb]: what it opens, what it reads, how it ends. *)
Lemma openweb_run (o : os) (text : str) (w : world) :
  let r := openweb websites similarity percent o text w in
  (exists urls, browser (snd r) = browser w ++ urls /\
                forall u, In u urls -> In u (map snd websites)) /\
  (exists k, stdin (snd r) = skipn k (stdin w)) /\
  match fst r with
  | Ok _ => True
  | Raise e => input_error e
  end.
Proof.
  cbv zeta. rewrite openweb_finish.
  destruct (resolve_words_known websites similarity percent text w)
    as [(Hb & _ & _ & k & Hk) Hr].
  destruct (fold_m _ _ _ w) as [[f|e] w1]; cbn [fst snd] in *.
  - destruct Hr as (_ & _ & Hv). rewrite finish_log.
    match goal with
    | |- context [log_to_file o text ?s ?w2] =>
        destruct (log_to_file_returns o text s w2) as (Hok & Hbr & Hin)
    end.
    rewrite Hok, Hbr, Hin. cbn [browser stdin]. rewrite Hb, Hk.
    split; [exists (urls_to_open f); split; [reflexivity | exact Hv]|].
    split; [now exists k | exact I].
  - split; [exists []; rewrite app_nil_r; split; [exact Hb | intros u []]|].
    split; [now exists k | exact Hr].
Qed.

Lemma main_ends (o : os) (fuel : nat) :
  forall w, (List.length (stdin w) < fuel)%nat ->
            exists r, main websites similarity percent fuel o w = Some r /\ ends websites w r.
Proof.
  induction fuel as [|fuel IH]; intros w Hlen; [lia|].
  cbn [main]. unfold input.
  destruct (stdin w) as [|line t] eqn:E.
  - eexists. split; [reflexivity|]. split; cbn [fst snd browser].
    + exists []. rewrite app_nil_r. split; [reflexivity | intros u []].
    + now left.
  - cbv zeta.
    set (w1 := World t _ (browser w) (now w) (disk w)).
    destruct (existsb (str_eqb (lower (strip line))) exit_words) eqn:Ex.
    { eexists. split; [reflexivity|]. subst w1. unfold print. split; cbn [fst snd browser].
      - exists []. rewrite app_nil_r. split; [reflexivity | intros u []].
      - exists [], line. eexists. rewrite E. cbn [stdin stdout app].
        split; [reflexivity | split; [exact Ex | reflexivity]]. }
    cbn [List.length] in Hlen.
    destruct (negb (truthy (strip line))).
    { destruct (IH w1) as (r & -> & (urls & Hb & Hv) & Hr); [cbn; lia|].
      exists r. split; [reflexivity|]. split.
      - exists urls. split; [exact Hb | exact Hv].
      - destruct (fst r); [|exact Hr].
        destruct Hr as (pre & l & out & Hl & Hx & Ho).
        exists (line :: pre), l, out. rewrite E.
        cbn [stdin w1] in Hl. rewrite Hl at 1.
        split; [reflexivity | split; [exact Hx | exact Ho]]. }
    destruct (openweb_run o (strip line) w1) as ((u1 & Hb1 & Hv1) & (k & Hk) & Hr1).
    destruct (openweb websites similarity percent o (strip line) w1) as [[[]|e] w2];
      cbn [fst snd] in *.
    + destruct (IH w2) as (r & -> & (u2 & Hb2 & Hv2) & Hr).
      { rewrite Hk. cbn [stdin w1]. rewrite length_skipn. lia. }
      exists r. split; [reflexivity|]. split.
      * exists (u1 ++ u2). rewrite Hb2, Hb1, app_assoc. split; [reflexivity|].
        intros u Hu. apply in_app_or in Hu as [Hu|Hu]; auto.
      * destruct (fst r); [|exact Hr].
        destruct Hr as (pre & l & out & Hl & Hx & Ho).
        exists (line :: firstn k t ++ pre), l, out. rewrite E.
        split; [|split; [exact Hx | exact Ho]].
        rewrite <- (firstn_skipn k t) at 1.
        cbn [stdin w1] in Hk. rewrite <- Hk, Hl.
        cbn [app]. now rewrite <- app_assoc.
    + eexists. split; [reflexivity|]. split; cbn [fst snd].
      * exists u1. split; [exact Hb1 | exact Hv1].
      * exact Hr1.
Qed.

(** More fuel does not change a run that has ended. *)
Lemma main_more_fuel (o : os) (fuel : nat) :
  forall w r, main websites similarity percent fuel o w = Some r ->
              main websites similarity percent (S fuel) o w = Some r.
Proof.
  induction fuel as [|fuel IH]; intros w r H; [discriminate|].
  cbn [main] in H. cbn [main].
  destruct (input _ w) as [[line|e] w1]; [|exact H].
  cbv zeta in H |- *.
  destruct (existsb _ exit_words); [exact H|].
  destruct (negb _); [now apply IH|].
  destruct (openweb _ _ _ _ _ w1) as [[u|e] w2]; [now apply IH | exact H].
Qed.

Lemma main_fuel_le (o : os) (fuel fuel' : nat) (w : world) (r : result unit * world) :
  (fuel <= fuel')%nat ->
  main websites similarity percent fuel o w = Some r ->
  main websites similarity percent fuel' o w = Some r.
Proof.
  induction 1 as [|m Hle IH]; intros H; [exact H|].
  now apply main_more_fuel, IH.
Qed.

End MainFacts.

(** [main] stops on every finite input: with more fuel than there are input
    lines the loop has ended, and more fuel changes nothing.  It returns only
    after reading one of the exit words (in any case, with any surrounding
    whitespace): the input it has read ends with that line, the input after
    it is left unread, and [Exiting...] is the last line printed.  Otherwise
    it ends with the error of reading an answer.  The URLs it opened are URLs
    of the dictionary. *)
Theorem main_terminates (websites : list (str * str))
    (similarity : str -> str -> Q) (percent : Q -> str)
    (o : Runtime.os) (fuel : nat) (w : Runtime.world) :
  (List.length (Runtime.stdin w) < fuel)%nat ->
  exists r,
    Resolver.main websites similarity percent fuel o w = Some r /\
    (forall fuel', (fuel <= fuel')%nat ->
                   Resolver.main websites similarity percent fuel' o w = Some r) /\
    (exists urls,
        Runtime.browser (snd r) = Runtime.browser w ++ urls /\
        forall u, In u urls -> In u (map snd websites)) /\
    match fst r with
    | Runtime.Ok _ =>
        exists before line out,
          Runtime.stdin w = before ++ line :: Runtime.stdin (snd r) /\
          existsb (Resolver.str_eqb (lower (strip line))) Resolver.exit_words = true /\
          Runtime.stdout (snd r) = out ++ [lit "Exiting..." ++ ["010"%char]]
    | Runtime.Raise e => Runtime.input_error e
    end.
Proof.
  intros Hlen.
  destruct (main_ends websites similarity percent o fuel w Hlen) as (r & Hr & Hb & He).
  exists r. split; [exact Hr | split; [|split; [exact Hb | exact He]]].
  intros fuel' Hle. now apply main_fuel_le with fuel.
Qed.

Lemma main_terminates_witness :
  let websites := [(lit "ab", lit "u1")] in
  let w := Runtime.World [lit "ab"; []; lit " Quit "; lit "zz"] [] []
             (Runtime.DateTime 2024 3 7 9 5 0) (fun _ => []) in
  option_map (fun r => (fst r, Runtime.browser (snd r), Runtime.stdin (snd r)))
    (Resolver.main websites (fun _ _ => 0%Q) (fun _ => []) 5 Runtime.healthy_os w)
  = Some (Runtime.Ok tt, [lit "u1"], [lit "zz"]) /\
  exists r,
    Resolver.main websites (fun _ _ => 0%Q) (fun _ => []) 5 Runtime.healthy_os w = Some r /\
    (forall fuel', (5 <= fuel')%nat ->
                   Resolver.main websites (fun _ _ => 0%Q) (fun _ => []) fuel'
                     Runtime.healthy_os w = Some r) /\
    (exists urls,
        Runtime.browser (snd r) = Runtime.browser w ++ urls /\
        forall u, In u urls -> In u (map snd websites)) /\
    match fst r with
    | Runtime.Ok _ =>
        exists before line out,
          Runtime.stdin w = before ++ line :: Runtime.stdin (snd r) /\
          existsb (Resolver.str_eqb (lower (strip line))) Resolver.exit_words = true /\
          Runtime.stdout (snd r) = out ++ [lit "Exiting..." ++ ["010"%char]]
    | Runtime.Raise e => Runtime.input_error e
    end.
Proof.
  cbv zeta. split; [vm_compute; reflexivity|].
  apply (main_terminates [(lit "ab", lit "u1")] (fun _ _ => 0%Q) (fun _ => []) Runtime.healthy_os
           5 (Runtime.World [lit "ab"; []; lit " Quit "; lit "zz"] [] []
                (Runtime.DateTime 2024 3 7 9 5 0) (fun _ => []))).
  cbn. lia.
Defined.
